(** * A shallow embedding of itxml2pl (iTunes Library.xml to playlists).

    The modelled code is [itxml2pl/lib/sanitizers.py], [itxml2pl/lib/parsers.py]
    and the conversion loop [parse_xml] of [itxml2pl/__main__.py].
    Python exceptions are the [Err] branch of [Res]; the XML elements read by
    the xpath queries are a flat list of [elem]s, as the children of a
    plist [<dict>]. *)

From Stdlib Require Import String Ascii List Bool ZArith Lia.
From Stdlib Require Import DecimalString DecimalFacts DecimalZ.
Import ListNotations.
Open Scope string_scope.

(** ** Python exceptions and the result type *)

Inductive exn :=
| IndexError
| AttributeError
| TypeError
| KeyError
| ValueError
| FileNotFoundError
| RecursionError
| OSError
| ZeroDivisionError.

Inductive Res (A : Type) :=
| Ok : A -> Res A
| Err : exn -> Res A.
Arguments Ok {A} _.
Arguments Err {A} _.

Definition bind {A B} (m : Res A) (k : A -> Res B) : Res B :=
  match m with
  | Ok a => k a
  | Err e => Err e
  end.

Notation "'let*' x ':=' m 'in' k" := (bind m (fun x => k))
  (at level 200, x name, m at level 100, k at level 200).

Definition is_err {A} (r : Res A) : bool :=
  match r with Err _ => true | Ok _ => false end.

(** ** Python string operations used by the code *)

Definition dquote : ascii := ascii_of_nat 34.
Definition backslash : ascii := ascii_of_nat 92.

Definition str1 (c : ascii) : string := String c EmptyString.

(** [str.lower] on the ASCII range. *)
Definition lower_char (c : ascii) : ascii :=
  let n := nat_of_ascii c in
  if ((65 <=? n) && (n <=? 90))%nat then ascii_of_nat (n + 32)%nat else c.

Fixpoint lower (s : string) : string :=
  match s with
  | EmptyString => EmptyString
  | String c s' => String (lower_char c) (lower s')
  end.

(** [str.isspace] on the ASCII range: tab, newline, vertical tab, form
    feed, carriage return, the four separators 0x1c-0x1f and space. *)
Definition is_space (c : ascii) : bool :=
  let n := nat_of_ascii c in
  (((9 <=? n) && (n <=? 13)) || ((28 <=? n) && (n <=? 32)))%nat.

Fixpoint lstrip (s : string) : string :=
  match s with
  | EmptyString => EmptyString
  | String c s' => if is_space c then lstrip s' else s
  end.

Definition rstrip (s : string) : string :=
  string_of_list_ascii
    (rev (list_ascii_of_string (lstrip (string_of_list_ascii
       (rev (list_ascii_of_string s)))))).

(** [s in t] for strings: [s] occurs in [t] at some offset. *)
Fixpoint str_contains (s t : string) : bool :=
  if String.prefix s t then true
  else match t with
       | EmptyString => false
       | String _ t' => str_contains s t'
       end.

(** [s.replace(c, r)] for a one-character pattern [c]. *)
Fixpoint replace_char (c : ascii) (r : string) (s : string) : string :=
  match s with
  | EmptyString => EmptyString
  | String d s' =>
      if Ascii.eqb c d then r ++ replace_char c r s'
      else String d (replace_char c r s')
  end.

(** [s.replace(pat, r)] for any pattern: non-overlapping occurrences from
    the left; an empty pattern inserts [r] around every character. *)
Fixpoint replace_fuel (fuel : nat) (pat r s : string) : string :=
  match fuel with
  | O => s
  | S fuel' =>
      match s with
      | EmptyString => EmptyString
      | String d s' =>
          if String.prefix pat s
          then r ++ replace_fuel fuel'
                 pat r (substring (String.length pat)
                          (String.length s - String.length pat)%nat s)
          else String d (replace_fuel fuel' pat r s')
      end
  end.

Fixpoint interleave (r s : string) : string :=
  match s with
  | EmptyString => r
  | String d s' => r ++ String d (interleave r s')
  end.

Definition str_replace (pat r s : string) : string :=
  match pat with
  | EmptyString => interleave r s
  | _ => replace_fuel (S (String.length s)) pat r s
  end.

(** [s.split(sep)] for a one-character separator. *)
Fixpoint split_on (sep : ascii) (s : string) : list string :=
  match s with
  | EmptyString => [EmptyString]
  | String c s' =>
      match split_on sep s' with
      | [] => [str1 c]
      | w :: ws => if Ascii.eqb c sep then EmptyString :: w :: ws
                   else String c w :: ws
      end
  end.

(** [sep.join(parts)]. *)
Fixpoint join (sep : string) (parts : list string) : string :=
  match parts with
  | [] => EmptyString
  | [p] => p
  | p :: ps => p ++ sep ++ join sep ps
  end.

Definition last_char (s : string) : option ascii :=
  match rev (list_ascii_of_string s) with
  | [] => None
  | c :: _ => Some c
  end.

(** [s[:-1]]. *)
Definition drop_last (s : string) : string :=
  string_of_list_ascii (removelast (list_ascii_of_string s)).

(** [len(s)]. *)
Definition py_len (s : string) : nat := String.length s.

(** [int(s)] on a decimal text; [int(None)] raises [TypeError]. *)
Definition py_int (t : option string) : Res Z :=
  match t with
  | None => Err TypeError
  | Some s =>
      match NilZero.int_of_string s with
      | Some i => Ok (Z.of_int i)
      | None => Err ValueError
      end
  end.

(** The decimal text of a natural number, as lxml reads it back from an
    [<integer>] element written by iTunes. *)
Definition dec (n : nat) : string := NilZero.string_of_int (Z.to_int (Z.of_nat n)).

(** ** sanitizers.py *)

Definition invalid_chars : list ascii :=
  ["/"; backslash; dquote; "'"; "?"; ":"; "<"; ">"; "*"; "|"]%char.

(** [sanitize_path(entry, attribute)]: [entry[-1]] raises [IndexError] on
    an empty entry when the attribute is not ["Name"]. *)
Definition sanitize_path (entry attribute : string) : Res string :=
  let entry :=
    fold_left (fun e c => if str_contains (str1 c) e then replace_char c "_" e else e)
      invalid_chars entry in
  if negb (String.eqb attribute "Name") then
    match last_char entry with
    | None => Err IndexError
    | Some l =>
        let entry := if Ascii.eqb l "." then drop_last entry ++ "_" else entry in
        match entry with
        | EmptyString => Err IndexError
        | String f rest => if Ascii.eqb f "." then Ok ("_" ++ rest) else Ok entry
        end
    end
  else Ok entry.

(** ** The XML nodes of Library.xml

    A track or playlist is a plist [<dict>]: a flat sequence of [<key>]
    elements, each followed by its value. [Str] and [Int] carry the
    element's [.text], which lxml gives as [None] for an empty element;
    [Tag] is any other value element ([<true/>], [<date>], ...). *)

Inductive elem :=
| Key (text : string)
| Str (text : option string)
| Int (text : option string)
| Tag (name : string).

Definition node := list elem.

Definition is_key (attr : string) (e : elem) : bool :=
  match e with Key t => String.eqb t attr | _ => false end.

(** [el.xpath("key[text()='attr']")] is non-empty. *)
Definition has_key (n : node) (attr : string) : bool := existsb (is_key attr) n.

(** The siblings after the first [<key>] whose text is [attr]. *)
Fixpoint after_key (attr : string) (n : node) : option node :=
  match n with
  | [] => None
  | e :: n' => if is_key attr e then Some n' else after_key attr n'
  end.

Fixpoint first_str (n : node) : option (option string) :=
  match n with
  | [] => None
  | Str t :: _ => Some t
  | _ :: n' => first_str n'
  end.

Fixpoint first_int (n : node) : option (option string) :=
  match n with
  | [] => None
  | Int t :: _ => Some t
  | _ :: n' => first_int n'
  end.

(** [el.xpath("key[text()='attr']/following-sibling::string[1]")[0].text]
    when the list is non-empty. The xpath result is in document order, and
    the first string after an earlier key never comes after the first
    string after a later key, so element [0] is the one after the first
    matching key. *)
Definition string_after (n : node) (attr : string) : option (option string) :=
  match after_key attr n with
  | None => None
  | Some rest => first_str rest
  end.

(** The same query with [following-sibling::integer[1]]. *)
Definition integer_after (n : node) (attr : string) : option (option string) :=
  match after_key attr n with
  | None => None
  | Some rest => first_int rest
  end.

(** ** parsers.py: [_LibraryEntry.get_str_attr] *)

Definition get_str_attr (n : node) (attr : string) (path_sanitize : bool) : Res string :=
  match string_after n attr with
  | None => if String.eqb attr "Album" then Ok "Unknown Album" else Ok ""
  | Some None => Err AttributeError          (* None.lstrip() *)
  | Some (Some text) =>
      let result := rstrip (lstrip text) in
      if path_sanitize then sanitize_path result attr else Ok result
  end.

(** ** parsers.py: [Track] *)

Definition FILE_EXT_MAP : list (string * string) :=
  [ ("MPEG audio file",             ".mp3");
    ("MPEG-4 video file",           ".m4a");
    ("MPEG-4 audio file",           ".mp4");
    ("Purchased MPEG-4 video file", ".m4v");
    ("AAC audio file",              ".m4a");
    ("Purchased AAC audio file",    ".m4a");
    ("Matched AAC audio file",      ".m4a");
    ("AIFF audio file",             ".aif");
    ("WAV audio file",              ".wav") ].

Fixpoint assoc (k : string) (m : list (string * string)) : option string :=
  match m with
  | [] => None
  | (k', v) :: m' => if String.eqb k k' then Some v else assoc k m'
  end.

(** [Track._get_file_ext]: [None] when the kind is not a key of the map
    (after printing a warning). *)
Definition get_file_ext (n : node) : Res (option string) :=
  let* file_type := get_str_attr n "Kind" true in
  Ok (assoc file_type FILE_EXT_MAP).

(** [Track._get_track_num]. [text + "-"] and [len(text)] raise [TypeError]
    on an empty element, whose text is [None]. *)
Definition get_track_num (n : node) : Res string :=
  let* disc_part :=
    match integer_after n "Disc Count" with
    | None => Ok ""
    | Some dc =>
        let* dcount := py_int dc in
        if (1 <? dcount)%Z then
          match integer_after n "Disc Number" with
          | None => Ok ""
          | Some None => Err TypeError
          | Some (Some d) => Ok (d ++ "-")
          end
        else Ok ""
    end in
  match integer_after n "Track Number" with
  | None => Ok disc_part
  | Some None => Err TypeError
  | Some (Some t) =>
      if Nat.eqb (py_len t) 1 then Ok (disc_part ++ "0" ++ t ++ " ")
      else Ok (disc_part ++ t ++ " ")
  end.

Definition priority_attrs : list string :=
  ["Sort Album Artist"; "Album Artist"; "Sort Artist"].

Fixpoint artist_from (n : node) (attrs : list string) (artist : string) : Res string :=
  match attrs with
  | [] => if String.eqb artist "" then Ok "Unknown Artist" else Ok artist
  | attr :: rest =>
      let* val := get_str_attr n attr true in
      if negb (String.eqb val "") then
        if String.eqb val "Various Artists" then Ok "VARIOUS ARTISTS" else Ok val
      else artist_from n rest artist
  end.

(** [Track._get_artist_dir], given [self.artist] computed before it. *)
Definition get_artist_dir (n : node) (artist : string) : Res string :=
  if has_key n "Compilation" then Ok "Compilations"
  else artist_from n priority_attrs artist.

Record Track := mkTrack {
  tr_name : string;
  tr_artist : string;
  tr_album : string;
  tr_track_num : string;
  tr_artist_dir : string;
  tr_file_ext : option string }.

(** [Track.__init__], field by field in the order of the source. *)
Definition make_track (n : node) : Res Track :=
  let* name0 := get_str_attr n "Name" false in
  let* name := sanitize_path name0 "Name" in
  let* artist := get_str_attr n "Artist" true in
  let* album := get_str_attr n "Album" true in
  let* track_num := get_track_num n in
  let* artist_dir := get_artist_dir n artist in
  let* file_ext := get_file_ext n in
  Ok (mkTrack name artist album track_num artist_dir file_ext).

(** ** parsers.py: [Playlist] and the folder table *)

(** A playlist [<dict>]: its key/value children and the texts of the
    [<integer>] track IDs of its [array/dict] members. *)
Record PlaylistEl := mkPlaylistEl {
  pl_node : node;
  pl_track_ids : list string }.

Record Playlist := mkPlaylist {
  pl_name : string;
  pl_id : string;
  pl_parent_id : string }.

(** [Playlist.__init__]. *)
Definition make_playlist (el : PlaylistEl) : Res Playlist :=
  let* name := get_str_attr (pl_node el) "Name" false in
  let* id := get_str_attr (pl_node el) "Playlist Persistent ID" false in
  let* parent_id := get_str_attr (pl_node el) "Parent Persistent ID" false in
  Ok (mkPlaylist name id parent_id).

(** [Playlist.is_folder]. *)
Definition is_folder (el : PlaylistEl) : bool := has_key (pl_node el) "Folder".

(** The folder table, a [dict] from persistent ID to (name, parent ID):
    [dict.update] is modelled by consing, and lookup takes the first
    binding, i.e. the latest update. *)
Definition FolderTable := list (string * (string * string)).

Fixpoint lookup_folder (k : string) (t : FolderTable) : option (string * string) :=
  match t with
  | [] => None
  | (k', v) :: t' => if String.eqb k k' then Some v else lookup_folder k t'
  end.

Fixpoint get_pl_folders_from (pls : list PlaylistEl) (acc : FolderTable) : Res FolderTable :=
  match pls with
  | [] => Ok acc
  | el :: rest =>
      let* p := make_playlist el in
      if negb (is_folder el) then get_pl_folders_from rest acc
      else get_pl_folders_from rest ((pl_id p, (pl_name p, pl_parent_id p)) :: acc)
  end.

(** [get_pl_folders]. *)
Definition get_pl_folders (pls : list PlaylistEl) : Res FolderTable :=
  get_pl_folders_from pls [].

(** [Playlist._parent_folder]. CPython bounds the depth of the recursion:
    [fuel] is the number of frames left before [RecursionError]. A missing
    key raises [KeyError]. *)
Fixpoint parent_folder (fuel : nat) (folders_table : FolderTable)
    (pl_parent_id path_so_far dir_sep : string) : Res string :=
  match fuel with
  | O => Err RecursionError
  | S fuel' =>
      if String.eqb pl_parent_id "" then Ok path_so_far
      else match lookup_folder pl_parent_id folders_table with
           | None => Err KeyError
           | Some (name, parent) =>
               parent_folder fuel' folders_table parent
                 (name ++ dir_sep ++ path_so_far) dir_sep
           end
  end.

(** CPython's default recursion limit. *)
Definition py_recursion_limit : nat := 1000.

(** ** The file system

    [fs_exists] answers [os.path.exists] for non-empty paths and
    [fs_listdir] answers [os.listdir] ([None] when it raises). The empty
    path never exists and cannot be listed. *)

Record FS := mkFS {
  fs_exists : string -> bool;
  fs_listdir : string -> option (list string) }.

Definition path_exists (fs : FS) (p : string) : bool :=
  if String.eqb p "" then false else fs_exists fs p.

Definition listdir (fs : FS) (p : string) : Res (list string) :=
  if String.eqb p "" then Err FileNotFoundError
  else match fs_listdir fs p with
       | Some l => Ok l
       | None => Err OSError
       end.

(** Writing a file makes it exist; directory listings of the music tree
    are not affected (the playlist directory is kept out of the music
    directory). *)
Definition fs_write (fs : FS) (p : string) : FS :=
  mkFS (fun q => String.eqb q p || fs_exists fs q) (fs_listdir fs).

(** ** parsers.py: [fuzzy_search] *)

(** The inner [for dir_entry in curr_dir] loop: the candidate kept is the
    last assignment to [best_dir_to_add]. *)
Definition pick_entry (contains : bool) (tp_entry : string) (curr_dir : list string) : string :=
  let lc_tp_entry := lower tp_entry in
  fold_left
    (fun best dir_entry =>
       let lc_de := lower dir_entry in
       let best := if String.eqb lc_de lc_tp_entry then dir_entry else best in
       if str_contains lc_tp_entry lc_de && contains then dir_entry else best)
    curr_dir tp_entry.

(** The outer [for tp_entry in tp_parts] loop. [None] is the early
    [return ""]; [Some fixed_path] is the path when the loop ends. *)
Fixpoint fuzzy_loop (fs : FS) (dir_sep : string) (contains : bool)
    (fixed_path : string) (tp_parts : list string) : Res (option string) :=
  match tp_parts with
  | [] => Ok (Some fixed_path)
  | tp_entry :: rest =>
      if path_exists fs (fixed_path ++ tp_entry)
      then fuzzy_loop fs dir_sep contains (fixed_path ++ tp_entry ++ dir_sep) rest
      else
        let* curr_dir := listdir fs fixed_path in
        let fixed' := fixed_path ++ pick_entry contains tp_entry curr_dir ++ dir_sep in
        if path_exists fs fixed'
        then fuzzy_loop fs dir_sep contains fixed' rest
        else Ok None
  end.

Definition fuzzy_search (fs : FS) (track_path music_dir : string) (dir_sep : ascii)
    (contains : bool) : Res string :=
  let rel_tp := str_replace music_dir "" track_path in
  let tp_parts := split_on dir_sep rel_tp in
  let* r := fuzzy_loop fs (str1 dir_sep) contains music_dir tp_parts in
  match r with
  | None => Ok ""
  | Some fixed_path => Ok (drop_last fixed_path)
  end.

(** ** __main__.py: [parse_xml] *)

Inductive Policy := Warn | Error | NoCheck.

(** The options [parse_xml] reads ([check_exists] is one of argparse's
    choices ["warn"], ["error"], ["none"]). *)
Record Config := mkConfig {
  music_dir : string;
  docker_dir : string;
  playlist_dir : string;
  check_exists : Policy;
  xml_output : bool;
  use_dos_filepaths : bool }.

Definition dir_sep_char (c : Config) : ascii :=
  if use_dos_filepaths c then backslash else "/"%char.

Definition dir_sep (c : Config) : string := str1 (dir_sep_char c).

Definition nl : string := str1 (ascii_of_nat 10).

(** Python [set.add] on a set kept as a duplicate-free list. *)
Definition set_add (x : string) (s : list string) : list string :=
  if existsb (String.eqb x) s then s else s ++ [x].

Record Library := mkLibrary {
  lib_tracks : list (string * node);      (* the track <dict>: ID key, track node *)
  lib_playlists : list PlaylistEl }.

(** [lookup_song]: the [<dict>] after the first key with the track ID;
    [[0]] raises [IndexError] when there is none. *)
Fixpoint lookup_song (track_id : string) (tracks : list (string * node)) : Res node :=
  match tracks with
  | [] => Err IndexError
  | (k, n) :: rest => if String.eqb k track_id then Ok n else lookup_song track_id rest
  end.

(** The state of the inner loop over a playlist's members: the global
    sets [all_tracks_in_pls] and [all_tracks_not_found], and the
    playlist's [pl_tracks_not_found], [track_paths] and [pl_incomplete]. *)
Record MSt := mkMSt {
  all_tracks_in_pls : list string;
  all_tracks_not_found : list string;
  pl_tracks_not_found : list string;
  track_paths : list string;
  pl_incomplete : bool }.

Definition add_in (p : string) (m : MSt) : MSt :=
  mkMSt (set_add p (all_tracks_in_pls m)) (all_tracks_not_found m)
    (pl_tracks_not_found m) (track_paths m) (pl_incomplete m).

Definition add_miss (p : string) (m : MSt) : MSt :=
  mkMSt (all_tracks_in_pls m) (set_add p (all_tracks_not_found m))
    (set_add p (pl_tracks_not_found m)) (track_paths m) true.

Definition append_path (p : string) (m : MSt) : MSt :=
  mkMSt (all_tracks_in_pls m) (all_tracks_not_found m)
    (pl_tracks_not_found m) (track_paths m ++ [p ++ nl]) (pl_incomplete m).

(** Lines 239-279: the existence check, the fuzzy search and the miss
    policy, for one member with expected path [check_path] and playlist
    entry [path]. *)
Definition resolve_member (c : Config) (fs : FS) (m : MSt) (check_path path : string) : Res MSt :=
  if path_exists fs check_path then Ok (append_path path m)
  else
    let* corrected_path := fuzzy_search fs check_path (music_dir c) (dir_sep_char c) true in
    if negb (path_exists fs corrected_path) then
      let miss := if String.eqb corrected_path "" then check_path else corrected_path in
      let m := add_miss (miss ++ nl) m in
      match check_exists c with
      | Warn => Ok m
      | Error => Err FileNotFoundError
      | NoCheck => Ok (append_path path m)
      end
    else Ok (append_path corrected_path m).

(** One iteration of [for tr_id_el in pl_tracks] (lines 219-279). A
    missing extension makes [... + tr.file_ext] add [None] to a string. *)
Definition member_step (c : Config) (tracks : list (string * node)) (fs : FS)
    (m : MSt) (track_id : string) : Res MSt :=
  let* tr_el := lookup_song track_id tracks in
  let* tr := make_track tr_el in
  match tr_file_ext tr with
  | None => Err TypeError
  | Some ext =>
      let rel_path := join (dir_sep c) [tr_artist_dir tr; tr_album tr;
                                        tr_track_num tr ++ tr_name tr] ++ ext in
      let check_path := music_dir c ++ rel_path in
      let path := if negb (String.eqb (docker_dir c) "") then docker_dir c ++ rel_path
                  else check_path in
      resolve_member c fs (add_in check_path m) check_path path
  end.

Fixpoint fold_res {A B} (f : A -> B -> Res A) (a : A) (l : list B) : Res A :=
  match l with
  | [] => Ok a
  | b :: l' => let* a' := f a b in fold_res f a' l'
  end.

(** The state of the outer loop: the file system, the files written so far
    (path and lines, in order), the global sets, [incomplete_playlists]
    and [total_playlists]. *)
Record GSt := mkGSt {
  g_fs : FS;
  g_writes : list (string * list string);
  g_in : list string;
  g_not_found : list string;
  g_incomplete : list string;
  g_total : Z }.

(** Writing a file; an XML playlist's content is modelled by its track
    paths, the rest of [write_xml_playlist] being a fixed header. *)
Definition write_file (p : string) (lines : list string) (g : GSt) : GSt :=
  mkGSt (fs_write (g_fs g) p) (g_writes g ++ [(p, lines)]) (g_in g)
    (g_not_found g) (g_incomplete g) (g_total g).

Definition pl_ignores : list string := ["Library"; "Downloaded"; "Music"; "Recently Added"].

(** [print_progress_bar(i+1, total_playlists, ...)] divides by
    [total_playlists]; it fails only when that is zero. *)
Definition print_progress_bar (total_rows : Z) : Res unit :=
  if Z.eqb total_rows 0 then Err ZeroDivisionError else Ok tt.

(** [missing_tr_file_path]: the last component of the playlist file path
    becomes ["playlist.missing"] (XML) or gets [".missing"] appended (M3U). *)
Definition map_last (f : string -> string) (l : list string) : list string :=
  match rev l with
  | [] => []
  | x :: r => rev (f x :: r)
  end.

Definition missing_file_path (c : Config) (pl_filepath : string) : string :=
  join (dir_sep c)
    (map_last (fun last => if xml_output c then "playlist.missing" else last ++ ".missing")
       (split_on (dir_sep_char c) pl_filepath)).

(** [pl_filepath], lines 185-195. *)
Definition playlist_filepath (c : Config) (folders : FolderTable) (pl : Playlist) : Res string :=
  let* parents := parent_folder py_recursion_limit folders (pl_parent_id pl) "" (dir_sep c) in
  let pl_filepath := playlist_dir c ++ parents in
  let* pl_name_sanitized := sanitize_path (pl_name pl) "Name" in
  if xml_output c then Ok (join (dir_sep c) [pl_filepath; pl_name_sanitized; "playlist.xml"])
  else Ok (pl_filepath ++ dir_sep c ++ pl_name_sanitized ++ ".m3u").

(** One iteration of [for i, plist in enumerate(playlists)] (lines 171-308). *)
Definition playlist_step (c : Config) (tracks : list (string * node)) (folders : FolderTable)
    (g : GSt) (plist : PlaylistEl) : Res GSt :=
  let* pl := make_playlist plist in
  if existsb (String.eqb (pl_name pl)) pl_ignores then Ok g
  else if is_folder plist then
    Ok (mkGSt (g_fs g) (g_writes g) (g_in g) (g_not_found g) (g_incomplete g) (g_total g - 1))
  else
    let* pl_filepath := playlist_filepath c folders pl in
    if path_exists (g_fs g) pl_filepath then Ok g
    else
      let* m := fold_res (member_step c tracks (g_fs g))
                  (mkMSt (g_in g) (g_not_found g) [] [] false) (pl_track_ids plist) in
      let incomplete := if pl_incomplete m then app (g_incomplete g) [pl_name pl ++ nl]
                        else g_incomplete g in
      let g := mkGSt (g_fs g) (g_writes g) (all_tracks_in_pls m)
                 (all_tracks_not_found m) incomplete (g_total g) in
      let g := write_file pl_filepath (track_paths m) g in
      let g := write_file (missing_file_path c pl_filepath) (pl_tracks_not_found m) g in
      let* _ := print_progress_bar (g_total g) in
      Ok g.

(** The console summary: tracks not found / tracks referenced, and
    incomplete playlists / [total_playlists]. *)
Record Summary := mkSummary {
  sum_not_found : nat;
  sum_tracks : nat;
  sum_incomplete : nat;
  sum_playlists : Z }.

Record RunOut := mkRunOut {
  out_fs : FS;
  out_writes : list (string * list string);
  out_summary : Summary }.

(** [parse_xml] on the parsed library and the file system at the start. *)
Definition parse_xml (c : Config) (lib : Library) (fs : FS) : Res RunOut :=
  let playlists := lib_playlists lib in
  let* pl_folders := get_pl_folders playlists in
  let total_playlists := (Z.of_nat (length playlists) - Z.of_nat (length pl_ignores))%Z in
  let g0 := mkGSt fs [] [] [] [] total_playlists in
  let* g := fold_res (playlist_step c (lib_tracks lib) pl_folders) g0 playlists in
  let g := write_file (playlist_dir c ++ "00incomplete_playlists.txt") (g_incomplete g) g in
  let g := write_file (playlist_dir c ++ "00tracks_not_found.m3u") (g_not_found g) g in
  Ok (mkRunOut (g_fs g) (g_writes g)
        (mkSummary (length (g_not_found g)) (length (g_in g))
           (length (g_incomplete g)) (g_total g))).

(** ** Reference definitions, worded after the specification

    These are compared against the definitions above in the theorems. *)

(** The artist directory as the specification words it, for a track with
    no Compilation key: the first non-empty of the priority fields'
    values ("Various Artists" upper-cased), else the artist, else
    "Unknown Artist". *)
Definition artist_dir_spec (vals : list string) (artist : string) : string :=
  match find (fun v => negb (String.eqb v "")) vals with
  | Some v => if String.eqb v "Various Artists" then "VARIOUS ARTISTS" else v
  | None => if String.eqb artist "" then "Unknown Artist" else artist
  end.

(** The track-number prefix as the specification words it: the disc
    number and a hyphen when the disc count is above 1 and a disc number is
    present, then the track number zero-padded to two digits and a space. *)
Definition track_prefix_spec (disc_count disc : option nat) (track : nat) : string :=
  (match disc_count, disc with
   | Some dc, Some d => if Nat.ltb 1 dc then dec d ++ "-" else ""
   | _, _ => ""
   end) ++ (if Nat.ltb track 10 then "0" ++ dec track else dec track) ++ " ".

(** The [<integer>] element after a key holding the decimal text of [k]. *)
Definition int_text (k : option nat) : option (option string) :=
  option_map (fun n => Some (dec n)) k.

(** Following [k] parent links from [pid]: [Some ""] once the top level is
    reached, [None] once a link is missing from the table. *)
Fixpoint walk (t : FolderTable) (pid : string) (k : nat) : option string :=
  match k with
  | O => Some pid
  | S k' =>
      if String.eqb pid "" then Some ""
      else match lookup_folder pid t with
           | None => None
           | Some (_, parent) => walk t parent k'
           end
  end.

(** The segment chosen from a listing: an entry equal to the segment
    ignoring case, or in contains mode an entry containing it. *)
Definition entry_matches (contains : bool) (tp_entry dir_entry : string) : bool :=
  String.eqb (lower dir_entry) (lower tp_entry)
  || (contains && str_contains (lower tp_entry) (lower dir_entry)).

Fixpoint last_match (p : string -> bool) (l : list string) : option string :=
  match l with
  | [] => None
  | x :: l' =>
      match last_match p l' with
      | Some y => Some y
      | None => if p x then Some x else None
      end
  end.

(** Real playlists: not a folder and not one of the ignored names. *)
Definition is_real (el : PlaylistEl) : bool :=
  match make_playlist el with
  | Ok pl => negb (existsb (String.eqb (pl_name pl)) pl_ignores) && negb (is_folder el)
  | Err _ => false
  end.

Definition real_playlist_count (pls : list PlaylistEl) : nat :=
  length (filter is_real pls).

(** The amount [total_playlists] loses at a playlist: one for a folder that
    is not an ignored name. *)
Definition folder_decrement (el : PlaylistEl) : Z :=
  match make_playlist el with
  | Ok pl => if existsb (String.eqb (pl_name pl)) pl_ignores then 0%Z
             else if is_folder el then 1%Z else 0%Z
  | Err _ => 0%Z
  end.

Definition folders_decrement (pls : list PlaylistEl) : Z :=
  fold_right (fun el z => (folder_decrement el + z)%Z) 0%Z pls.

(** ** Concrete inputs *)

Module Sample.

Definition song (kind : string) : node :=
  [Key "Name"; Str (Some "Song"); Key "Artist"; Str (Some "A");
   Key "Album"; Str (Some "B"); Key "Track Number"; Int (Some "4");
   Key "Kind"; Str (Some kind)].

Definition playlist (name : string) (ids : list string) : PlaylistEl :=
  mkPlaylistEl [Key "Name"; Str (Some name)] ids.

Definition ignored : list PlaylistEl :=
  map (fun n => playlist n []) pl_ignores.

(** An empty music directory ["/m/"]. *)
Definition empty_fs : FS :=
  mkFS (fun _ => false) (fun d => if String.eqb d "/m/" then Some [] else None).

Definition cfg (p : Policy) : Config := mkConfig "/m/" "/m/" "/p/" p false false.

(** One real playlist "Mix" whose only track is missing on disk. *)
Definition lib_mix : Library :=
  mkLibrary [("1", song "MPEG audio file")] (ignored ++ [playlist "Mix" ["1"]]).

(** Its track is of a kind missing from [FILE_EXT_MAP]. *)
Definition lib_ogg : Library :=
  mkLibrary [("1", song "Ogg Vorbis file")] (ignored ++ [playlist "Mix" ["1"]]).

(** A library without the ignored playlists. *)
Definition lib_plain : Library :=
  mkLibrary [("1", song "MPEG audio file")] [playlist "Mix" ["1"]].

(** A music directory holding ["Foo"] and ["Foobar"]. *)
Definition foo_fs : FS :=
  mkFS (fun p => existsb (String.eqb p) ["/m/Foo/"; "/m/Foobar/"])
       (fun d => if String.eqb d "/m/" then Some ["Foo"; "Foobar"] else None).

End Sample.

(** ** sanitizers.py: [sanitize_xml] *)

Definition sanitize_xml (text : string) : string :=
  let text := replace_char "&" "&amp;" text in
  let text := replace_char "<" "&lt;" text in
  replace_char ">" "&gt;" text.


(** The entity decoding an XML reader applies to element text, for the
    three entities [sanitize_xml] produces. *)
Fixpoint xml_unescape (s : string) : string :=
  match s with
  | String "&" (String "a" (String "m" (String "p" (String ";" r)))) =>
      String "&" (xml_unescape r)
  | String "&" (String "l" (String "t" (String ";" r))) => String "<" (xml_unescape r)
  | String "&" (String "g" (String "t" (String ";" r))) => String ">" (xml_unescape r)
  | String c r => String c (xml_unescape r)
  | EmptyString => EmptyString
  end.

(** ** gen_utils.py: [ensure_slash] *)

(** The three path options [ensure_slash] rewrites. *)
Record PathOpts := mkPathOpts {
  opt_playlist_dir : string;
  opt_music_dir : string;
  opt_docker_dir : string }.

(** [if opts[arg][-1] != fp_slash: opts[arg] += fp_slash]; [[-1]] raises
    [IndexError] on an empty option. *)
Definition ensure_one (fp_slash : ascii) (p : string) : Res string :=
  match last_char p with
  | None => Err IndexError
  | Some l => if Ascii.eqb l fp_slash then Ok p else Ok (p ++ str1 fp_slash)
  end.

Definition ensure_slash (use_dos_filepaths : bool) (o : PathOpts) : Res PathOpts :=
  let fp_slash := if use_dos_filepaths then backslash else "/"%char in
  let* playlist_dir := ensure_one fp_slash (opt_playlist_dir o) in
  let* music_dir := ensure_one fp_slash (opt_music_dir o) in
  let* docker_dir := ensure_one fp_slash (opt_docker_dir o) in
  Ok (mkPathOpts playlist_dir music_dir docker_dir).


(** ** Characterisation of [sanitize_path]'s replacement loop *)

(** A character-wise map over a string. *)
Fixpoint smap (f : ascii -> ascii) (s : string) : string :=
  match s with
  | EmptyString => EmptyString
  | String c s' => String (f c) (smap f s')
  end.

(** The character the replacement loop of [sanitize_path] turns [d]
    into. *)
Definition san_char (d : ascii) : ascii :=
  if existsb (Ascii.eqb d) invalid_chars then "_"%char else d.

(** ** gen_utils.py: [parse_cli_args] and [main] *)

(** The last step of [parse_cli_args]:
    [if not cli_args['music_dir']: cli_args['check_exists'] = "none"]. *)
Definition parse_cli_check_exists (o : PathOpts) (check_exists : Policy) : Policy :=
  if String.eqb (opt_music_dir o) "" then NoCheck else check_exists.

(** [main] up to [parse_xml]: [parse_cli_args], then [ensure_slash],
    both outside the [try]; the path options and the policy that
    [parse_xml] receives. *)
Definition main_options (use_dos_filepaths : bool) (o : PathOpts) (check_exists : Policy)
    : Res (PathOpts * Policy) :=
  let check_exists := parse_cli_check_exists o check_exists in
  let* o := ensure_slash use_dos_filepaths o in
  Ok (o, check_exists).

(** * Properties *)

Lemma after_key_absent (n : node) (attr : string) :
  has_key n attr = false -> after_key attr n = None.
Proof.
  induction n as [|e n IH]; simpl; [reflexivity|].
  intros H. apply orb_false_iff in H as [H1 H2].
  rewrite H1. apply IH, H2.
Qed.

(** C8: when the node has no key named [attr], [get_str_attr] returns
    "Unknown Album" for Album and the empty string for every other field;
    a missing Artist gives the empty string, not "Unknown Artist". *)
Theorem get_str_attr_absent (n : node) (attr : string) (path_sanitize : bool)
    (Habsent : has_key n attr = false) :
  get_str_attr n attr path_sanitize
    = Ok (if String.eqb attr "Album" then "Unknown Album" else "")
  /\ (attr = "Artist" -> get_str_attr n attr path_sanitize = Ok "").
Proof.
  unfold get_str_attr, string_after.
  rewrite (after_key_absent n attr Habsent).
  split; [destruct (String.eqb attr "Album"); reflexivity|].
  intros ->. reflexivity.
Qed.

Lemma get_str_attr_absent_witness :
  has_key [Key "Name"; Str (Some "x")] "Artist" = false
  /\ get_str_attr [Key "Name"; Str (Some "x")] "Artist" true = Ok "".
Proof.
  split; [reflexivity|].
  exact (proj2 (get_str_attr_absent [Key "Name"; Str (Some "x")] "Artist" true
                  eq_refl) eq_refl).
Defined.

(** C10: for an attribute other than "Name", [sanitize_path] fails on the
    empty string ([entry[-1]] raises [IndexError]); so [get_str_attr] with
    sanitizing raises on a field whose value is present but empty (text
    [None]) or whitespace only. *)
Theorem empty_field_raises (n : node) (attr : string) (t : option string)
    (Hname : attr <> "Name")
    (Hval : string_after n attr = Some t)
    (Hempty : match t with None => True | Some s => rstrip (lstrip s) = "" end) :
  sanitize_path "" attr = Err IndexError
  /\ is_err (get_str_attr n attr true) = true.
Proof.
  assert (Hs : sanitize_path "" attr = Err IndexError).
  { unfold sanitize_path. simpl.
    apply String.eqb_neq in Hname. rewrite Hname. reflexivity. }
  split; [exact Hs|].
  unfold get_str_attr. rewrite Hval.
  destruct t as [s|]; [|reflexivity].
  rewrite Hempty, Hs. reflexivity.
Qed.

Lemma empty_field_raises_witness :
  is_err (get_str_attr [Key "Artist"; Str (Some "   ")] "Artist" true) = true.
Proof.
  refine (proj2 (empty_field_raises [Key "Artist"; Str (Some "   ")] "Artist"
                   (Some "   ") _ eq_refl eq_refl)).
  discriminate.
Defined.

Lemma to_int_not_nil (z : Z) : Z.to_int z <> Decimal.Pos Decimal.Nil /\ Z.to_int z <> Decimal.Neg Decimal.Nil.
Proof.
  pose proof (DecimalZ.to_of (Z.to_int z)) as H. rewrite DecimalZ.of_to in H.
  rewrite H. unfold Decimal.norm. destruct (Z.to_int z) as [d|d].
  - split; [|discriminate]. intros [=E]. exact (unorm_nonnil d E).
  - destruct (Decimal.nzhead d); split; discriminate.
Qed.

Lemma py_int_dec (n : nat) : py_int (Some (dec n)) = Ok (Z.of_nat n).
Proof.
  unfold py_int, dec. destruct (to_int_not_nil (Z.of_nat n)) as [H1 H2].
  rewrite NilZero.isi by assumption. rewrite DecimalZ.of_to. reflexivity.
Qed.

Lemma py_int_one_char (c : ascii) :
  match py_int (Some (String c "")) with Ok k => (k < 10)%Z | Err _ => True end.
Proof.
  destruct c as [[] [] [] [] [] [] [] []]; vm_compute; try exact I; reflexivity.
Qed.

Lemma dec_len_one (n : nat) : Nat.eqb (py_len (dec n)) 1 = Nat.ltb n 10.
Proof.
  destruct (Nat.ltb_spec n 10) as [Hlt|Hge].
  - do 10 (destruct n as [|n]; [reflexivity|]). lia.
  - pose proof (py_int_dec n) as P.
    destruct (dec n) as [|c [|c' s]] eqn:E; try reflexivity.
    exfalso. pose proof (py_int_one_char c) as Q. rewrite P in Q. lia.
Qed.

Lemma str_app_assoc (a b c : string) : (a ++ b) ++ c = a ++ (b ++ c).
Proof. induction a as [|x a IH]; simpl; [reflexivity|]. rewrite IH. reflexivity. Qed.

Lemma z_ltb_one_of_nat (k : nat) : Z.ltb 1 (Z.of_nat k) = Nat.ltb 1 k.
Proof.
  destruct (Z.ltb_spec 1 (Z.of_nat k)); destruct (Nat.ltb_spec 1 k); lia.
Qed.

(** C6: with the disc count, disc number and track number held as the
    decimal texts of numbers, the prefix is the disc number and a hyphen
    exactly when the disc count exceeds 1 and a disc number is present,
    then the track number zero-padded to two digits and a space; and the
    four examples of the specification. *)
Theorem track_num_format (n : node) (dc dn : option nat) (t : nat)
    (Hdc : integer_after n "Disc Count" = int_text dc)
    (Hdn : integer_after n "Disc Number" = int_text dn)
    (Htn : integer_after n "Track Number" = Some (Some (dec t))) :
  get_track_num n = Ok (track_prefix_spec dc dn t)
  /\ get_track_num [Key "Track Number"; Int (Some "3")] = Ok "03 "
  /\ get_track_num [Key "Track Number"; Int (Some "12")] = Ok "12 "
  /\ get_track_num [Key "Disc Count"; Int (Some "2"); Key "Disc Number"; Int (Some "1");
                    Key "Track Number"; Int (Some "4")] = Ok "1-04 "
  /\ get_track_num [Key "Disc Count"; Int (Some "1"); Key "Disc Number"; Int (Some "1");
                    Key "Track Number"; Int (Some "4")] = Ok "04 ".
Proof.
  split; [|repeat split; reflexivity].
  unfold get_track_num, track_prefix_spec.
  rewrite Hdc. destruct dc as [k|]; cbn [int_text option_map].
  - rewrite py_int_dec. cbn [bind]. rewrite z_ltb_one_of_nat.
    destruct (Nat.ltb 1 k).
    + rewrite Hdn. destruct dn as [d|]; cbn [int_text option_map bind];
        rewrite Htn, dec_len_one; destruct (Nat.ltb t 10);
        rewrite ?str_app_assoc; reflexivity.
    + cbn [bind]. rewrite Htn, dec_len_one.
      destruct dn; destruct (Nat.ltb t 10); reflexivity.
  - cbn [bind]. rewrite Htn, dec_len_one.
    destruct (Nat.ltb t 10); reflexivity.
Qed.

Lemma track_num_format_witness :
  get_track_num [Key "Disc Count"; Int (Some "2"); Key "Disc Number"; Int (Some "1");
                 Key "Track Number"; Int (Some "4")]
    = Ok (track_prefix_spec (Some 2) (Some 1) 4).
Proof.
  exact (proj1 (track_num_format
    [Key "Disc Count"; Int (Some "2"); Key "Disc Number"; Int (Some "1");
     Key "Track Number"; Int (Some "4")] (Some 2) (Some 1) 4 eq_refl eq_refl eq_refl)).
Defined.

Ltac inv_bind H :=
  repeat match type of H with
  | bind ?m _ = Ok _ =>
      let E := fresh "E" in
      destruct m eqn:E; cbn [bind] in H; [|discriminate H]
  end.

(** C5: a Compilation key gives "Compilations" whatever the other fields
    hold (even ones whose extraction would raise); otherwise the artist
    directory is the first non-empty of Sort Album Artist, Album Artist and
    Sort Artist ("Various Artists" becoming "VARIOUS ARTISTS"), else the
    track's Artist value if non-empty, else "Unknown Artist"; and a built
    [Track] gets its Artist value from the Artist field and its directory
    from this computation. *)
Theorem artist_dir_precedence (n : node) (artist v1 v2 v3 : string) :
  (has_key n "Compilation" = true -> get_artist_dir n artist = Ok "Compilations")
  /\ (has_key n "Compilation" = false ->
      get_str_attr n "Sort Album Artist" true = Ok v1 ->
      get_str_attr n "Album Artist" true = Ok v2 ->
      get_str_attr n "Sort Artist" true = Ok v3 ->
      get_artist_dir n artist = Ok (artist_dir_spec [v1; v2; v3] artist))
  /\ (forall tr, make_track n = Ok tr ->
      get_str_attr n "Artist" true = Ok (tr_artist tr)
      /\ get_artist_dir n (tr_artist tr) = Ok (tr_artist_dir tr)).
Proof.
  split; [|split].
  - intros Hc. unfold get_artist_dir. rewrite Hc. reflexivity.
  - intros Hc H1 H2 H3. unfold get_artist_dir. rewrite Hc.
    unfold priority_attrs, artist_from. rewrite H1. cbn [bind].
    unfold artist_dir_spec. cbn [find].
    destruct (String.eqb v1 "") eqn:E1; cbn [negb];
      [|destruct (String.eqb v1 "Various Artists"); reflexivity].
    rewrite H2. cbn [bind].
    destruct (String.eqb v2 "") eqn:E2; cbn [negb];
      [|destruct (String.eqb v2 "Various Artists"); reflexivity].
    rewrite H3. cbn [bind].
    destruct (String.eqb v3 "") eqn:E3; cbn [negb];
      [destruct (String.eqb artist ""); reflexivity
      |destruct (String.eqb v3 "Various Artists"); reflexivity].
  - intros tr H. unfold make_track in H. inv_bind H.
    inversion H; subst. cbn [tr_artist tr_artist_dir]. split; [reflexivity|assumption].
Qed.

Lemma artist_dir_precedence_witness :
  get_artist_dir [Key "Album Artist"; Str (Some "Various Artists")] "X"
    = Ok "VARIOUS ARTISTS"
  /\ get_artist_dir [Key "Compilation"; Tag "true"] "X" = Ok "Compilations".
Proof.
  split.
  - exact (proj1 (proj2 (artist_dir_precedence
      [Key "Album Artist"; Str (Some "Various Artists")] "X" "" "Various Artists" ""))
      eq_refl eq_refl eq_refl eq_refl).
  - exact (proj1 (artist_dir_precedence [Key "Compilation"; Tag "true"] "X" "" "" "")
      eq_refl).
Defined.

(** C7: [_parent_folder] is a terminating recursion (CPython stops it
    with [RecursionError] when the frames run out). It returns a path only
    when the chain of parent IDs from [pl_parent_id] reaches the top level
    through entries of the table; on a dangling ID it raises [KeyError],
    on a cycle it raises [RecursionError] (or [KeyError]). *)
Theorem parent_folder_terminates (fuel : nat) (t : FolderTable)
    (pl_parent_id path_so_far sep : string) :
  match parent_folder fuel t pl_parent_id path_so_far sep with
  | Ok _ => exists k, walk t pl_parent_id k = Some ""
  | Err e => e = KeyError \/ e = RecursionError
  end.
Proof.
  revert pl_parent_id path_so_far.
  induction fuel as [|fuel IH]; intros pid acc; cbn [parent_folder].
  - right. reflexivity.
  - destruct (String.eqb pid "") eqn:Hp.
    + exists 0. apply String.eqb_eq in Hp. subst. reflexivity.
    + destruct (lookup_folder pid t) as [[name parent]|] eqn:Hl.
      * specialize (IH parent (name ++ sep ++ acc)).
        destruct (parent_folder fuel t parent (name ++ sep ++ acc) sep); [|exact IH].
        destruct IH as [k Hk]. exists (S k). cbn [walk]. rewrite Hp, Hl. exact Hk.
      * left. reflexivity.
Qed.

Lemma fold_pick (contains : bool) (tp_entry : string) (curr_dir : list string) (acc : string) :
  fold_left
    (fun best dir_entry =>
       if str_contains (lower tp_entry) (lower dir_entry) && contains then dir_entry
       else if String.eqb (lower dir_entry) (lower tp_entry) then dir_entry else best)
    curr_dir acc
  = match last_match (entry_matches contains tp_entry) curr_dir with
    | Some d => d
    | None => acc
    end.
Proof.
  revert acc.
  induction curr_dir as [|d ds IH]; intros acc; cbn [fold_left last_match]; [reflexivity|].
  rewrite IH.
  destruct (last_match (entry_matches contains tp_entry) ds); [reflexivity|].
  unfold entry_matches.
  destruct (String.eqb (lower d) (lower tp_entry));
    destruct contains; destruct (str_contains (lower tp_entry) (lower d));
    reflexivity.
Qed.

Lemma pick_entry_last_match (contains : bool) (tp_entry : string) (curr_dir : list string) :
  pick_entry contains tp_entry curr_dir
  = match last_match (entry_matches contains tp_entry) curr_dir with
    | Some d => d
    | None => tp_entry
    end.
Proof.
  unfold pick_entry. cbv zeta. apply fold_pick.
Qed.

(** C4 (as the code does it): at each segment the resolver descends into
    the exact child when it exists; otherwise it lists the directory and
    takes the last entry, in listing order, that equals the segment
    ignoring case or (in contains mode) contains the lowercased segment,
    falling back to the segment itself; it reports not-found ([None], then
    [""]) when the assembled path does not exist. So in contains mode an
    entry equal up to case does not win over a later containing entry.
    The examples of the specification hold. *)
Theorem fuzzy_segment_choice (fs : FS) (sep : string) (contains : bool)
    (fixed_path tp_entry : string) (rest : list string) :
  fuzzy_loop fs sep contains fixed_path (tp_entry :: rest)
  = (if path_exists fs (fixed_path ++ tp_entry)
     then fuzzy_loop fs sep contains (fixed_path ++ tp_entry ++ sep) rest
     else
       let* curr_dir := listdir fs fixed_path in
       let best := match last_match (entry_matches contains tp_entry) curr_dir with
                   | Some d => d
                   | None => tp_entry
                   end in
       if path_exists fs (fixed_path ++ best ++ sep)
       then fuzzy_loop fs sep contains (fixed_path ++ best ++ sep) rest
       else Ok None)
  /\ pick_entry false "jane shepard" ["Jane Shepard"] = "Jane Shepard"
  /\ pick_entry true "greatest" ["Greatest Hits"] = "Greatest Hits".
Proof.
  split; [|split; reflexivity].
  cbn [fuzzy_loop].
  destruct (path_exists fs (fixed_path ++ tp_entry)); [reflexivity|].
  destruct (listdir fs fixed_path) as [curr|e]; cbn [bind]; [|reflexivity].
  rewrite pick_entry_last_match. reflexivity.
Qed.

(** C4 counterexample: in contains mode, with entries ["Foo"] and
    ["Foobar"] both directories, the segment ["foo"] resolves to
    ["Foobar"], not to the entry ["Foo"] equal to it ignoring case. *)
Lemma fuzzy_equal_not_preferred :
  fs_listdir Sample.foo_fs "/m/" = Some ["Foo"; "Foobar"]
  /\ String.eqb (lower "Foo") (lower "foo") = true
  /\ path_exists Sample.foo_fs "/m/Foo/" = true
  /\ fuzzy_search Sample.foo_fs "/m/foo" "/m/" "/" true = Ok "/m/Foobar".
Proof. repeat split; vm_compute; reflexivity. Qed.

Lemma set_add_in (x : string) (s : list string) : In x (set_add x s).
Proof.
  unfold set_add. destruct (existsb (String.eqb x) s) eqn:E.
  - apply existsb_exists in E as [y [Hy Hxy]].
    apply String.eqb_eq in Hxy. subst. exact Hy.
  - apply in_or_app. right. left. reflexivity.
Qed.

(** C2: for a member whose expected path does not exist and which the
    fuzzy search cannot recover (it returns [""]): under [warn] the path is
    added to the playlist's and the global miss sets, the member is left out
    of the output and processing goes on; under [error] the run raises
    [FileNotFoundError] (which [bind] propagates through every enclosing
    loop); under [none] the path is recorded in both miss sets and the
    playlist entry [path] of the member is still appended. *)
Theorem miss_policy (c : Config) (fs : FS) (m : MSt) (check_path path : string)
    (Hmiss : path_exists fs check_path = false)
    (Hfuzzy : fuzzy_search fs check_path (music_dir c) (dir_sep_char c) true = Ok "") :
  match check_exists c, resolve_member c fs m check_path path with
  | Warn, Ok m' =>
      In (check_path ++ nl) (all_tracks_not_found m')
      /\ In (check_path ++ nl) (pl_tracks_not_found m')
      /\ track_paths m' = track_paths m
      /\ pl_incomplete m' = true
  | Error, Err e => e = FileNotFoundError
  | NoCheck, Ok m' =>
      In (check_path ++ nl) (all_tracks_not_found m')
      /\ In (check_path ++ nl) (pl_tracks_not_found m')
      /\ track_paths m' = app (track_paths m) [path ++ nl]
      /\ pl_incomplete m' = true
  | _, _ => False
  end.
Proof.
  unfold resolve_member. rewrite Hmiss, Hfuzzy. cbn [bind].
  change (path_exists fs "") with false. cbn [negb].
  change (String.eqb "" "") with true. cbn iota.
  destruct (check_exists c); cbn.
  - repeat split; apply set_add_in.
  - reflexivity.
  - repeat split; apply set_add_in.
Qed.

Lemma miss_policy_witness :
  track_paths (match resolve_member (Sample.cfg NoCheck) Sample.empty_fs
                       (mkMSt [] [] [] [] false) "/m/A/x.mp3" "/m/A/x.mp3" with
               | Ok m' => m'
               | Err _ => mkMSt [] [] [] [] false
               end) = ["/m/A/x.mp3" ++ nl].
Proof.
  pose proof (miss_policy (Sample.cfg NoCheck) Sample.empty_fs (mkMSt [] [] [] [] false)
                "/m/A/x.mp3" "/m/A/x.mp3" eq_refl ltac:(vm_compute; reflexivity)) as H.
  cbn [check_exists Sample.cfg] in H.
  destruct (resolve_member (Sample.cfg NoCheck) Sample.empty_fs (mkMSt [] [] [] [] false)
              "/m/A/x.mp3" "/m/A/x.mp3"); [|destruct H].
  exact (proj1 (proj2 (proj2 H))).
Defined.

(** C1 (failing input): a track whose Kind, "Ogg Vorbis file", is not a
    key of [FILE_EXT_MAP] gets no extension, and the conversion of a
    playlist holding it raises [TypeError] (a string plus [None]) instead of
    leaving the track out. *)
Theorem unknown_kind_raises :
  get_file_ext (Sample.song "Ogg Vorbis file") = Ok None
  /\ parse_xml (Sample.cfg Warn) Sample.lib_ogg Sample.empty_fs = Err TypeError.
Proof. split; vm_compute; reflexivity. Qed.

(** C9 (failing input): for a library with one real playlist and none of
    the ignored playlists, the summary's playlist total is [1 - 4 = -3]. *)
Theorem summary_total_miscounts :
  real_playlist_count (lib_playlists Sample.lib_plain) = 1
  /\ match parse_xml (Sample.cfg Warn) Sample.lib_plain Sample.empty_fs with
     | Ok o => sum_playlists (out_summary o) = (-3)%Z
     | Err _ => False
     end.
Proof. split; vm_compute; reflexivity. Qed.

(** C3 counterexample: rerunning on the file system left by a first run
    under [warn] writes the two global files again and reports different
    counts (0 of 0 tracks missing and 0 incomplete playlists, against 1 of
    1 and 1). *)
Lemma rerun_rewrites_global_files :
  match parse_xml (Sample.cfg Warn) Sample.lib_mix Sample.empty_fs with
  | Ok o1 =>
      match parse_xml (Sample.cfg Warn) Sample.lib_mix (out_fs o1) with
      | Ok o2 =>
          out_writes o2 = [("/p/00incomplete_playlists.txt", []);
                           ("/p/00tracks_not_found.m3u", [])]
          /\ out_summary o1 = mkSummary 1 1 1 1
          /\ out_summary o2 = mkSummary 0 0 0 1
      | Err _ => False
      end
  | Err _ => False
  end.
Proof. vm_compute. repeat split. Qed.

(** ** Reruns of the conversion *)

Lemma path_exists_write (fs : FS) (p q : string) :
  path_exists (fs_write fs p) q = true <-> q <> "" /\ (q = p \/ path_exists fs q = true).
Proof.
  unfold path_exists, fs_write. cbn [fs_exists].
  destruct (String.eqb_spec q "") as [->|Hq].
  - split; [discriminate|intros [H _]; congruence].
  - rewrite orb_true_iff, String.eqb_eq. tauto.
Qed.

Lemma path_exists_write_mono (fs : FS) (p q : string) :
  path_exists fs q = true -> path_exists (fs_write fs p) q = true.
Proof.
  intros H. apply path_exists_write. split; [|right; exact H].
  intros ->. discriminate H.
Qed.

Lemma str_app_nonempty (s t : string) : t <> "" -> s ++ t <> "".
Proof. destruct s; [tauto|]. intros _. discriminate. Qed.

Lemma playlist_filepath_nonempty (c : Config) (f : FolderTable) (pl : Playlist) (fp : string) :
  playlist_filepath c f pl = Ok fp -> fp <> "".
Proof.
  intros H. unfold playlist_filepath in H. inv_bind H.
  destruct (xml_output c); inversion H; subst; cbn [join].
  - apply str_app_nonempty. unfold dir_sep, str1. discriminate.
  - apply str_app_nonempty. unfold dir_sep, str1. discriminate.
Qed.

(** What one iteration of the playlist loop guarantees when it succeeds:
    the playlist was read, files that existed still exist, the total lost
    the folder decrement, and a real playlist's output path exists. *)
Lemma playlist_step_ok (c : Config) (tracks : list (string * node)) (f : FolderTable)
    (g g' : GSt) (el : PlaylistEl) :
  playlist_step c tracks f g el = Ok g' ->
  exists pl, make_playlist el = Ok pl
  /\ (forall q, path_exists (g_fs g) q = true -> path_exists (g_fs g') q = true)
  /\ g_total g' = (g_total g - folder_decrement el)%Z
  /\ (is_real el = true ->
      exists fp, playlist_filepath c f pl = Ok fp /\ path_exists (g_fs g') fp = true).
Proof.
  intros H. unfold playlist_step in H.
  destruct (make_playlist el) as [pl|e] eqn:Hm; cbn [bind] in H; [|discriminate H].
  exists pl. split; [reflexivity|].
  unfold folder_decrement, is_real. rewrite Hm.
  destruct (existsb (String.eqb (pl_name pl)) pl_ignores) eqn:Hi.
  - inversion H; subst. split; [tauto|]. split; [lia|]. discriminate.
  - destruct (is_folder el) eqn:Hf.
    + inversion H; subst. cbn [g_fs g_total]. split; [tauto|]. split; [lia|]. discriminate.
    + destruct (playlist_filepath c f pl) as [fp|e] eqn:Hp; cbn [bind] in H; [|discriminate H].
      destruct (path_exists (g_fs g) fp) eqn:He.
      * inversion H; subst. split; [tauto|]. split; [lia|]. intros _. exists fp. tauto.
      * destruct (fold_res _ _ (pl_track_ids el)) as [m|e]; cbn [bind] in H; [|discriminate H].
        cbv zeta in H.
        destruct (print_progress_bar _); cbn [bind] in H; [|discriminate H].
        inversion H; subst. cbn [write_file g_fs g_total].
        split; [intros q Hq; apply path_exists_write_mono, path_exists_write_mono, Hq|].
        split; [lia|]. intros _. exists fp. split; [reflexivity|].
        apply path_exists_write_mono, path_exists_write. split; [|left; reflexivity].
        exact (playlist_filepath_nonempty c f pl fp Hp).
Qed.

Lemma fold_playlists_mono (c : Config) (tracks : list (string * node)) (f : FolderTable)
    (pls : list PlaylistEl) :
  forall g g1, fold_res (playlist_step c tracks f) g pls = Ok g1 ->
  forall q, path_exists (g_fs g) q = true -> path_exists (g_fs g1) q = true.
Proof.
  induction pls as [|el pls IH]; intros g g1 H q Hq; cbn [fold_res] in H.
  - inversion H; subst. exact Hq.
  - destruct (playlist_step c tracks f g el) as [g'|e] eqn:Hs; cbn [bind] in H; [|discriminate H].
    destruct (playlist_step_ok c tracks f g g' el Hs) as [pl [_ [Hmono _]]].
    exact (IH g' g1 H q (Hmono q Hq)).
Qed.

(** A completed first loop leaves every real playlist's output path on
    disk and [total_playlists] decremented once per non-ignored folder. *)
Lemma fold_playlists_first (c : Config) (tracks : list (string * node)) (f : FolderTable)
    (pls : list PlaylistEl) :
  forall g g1, fold_res (playlist_step c tracks f) g pls = Ok g1 ->
  (forall el, In el pls ->
     exists pl, make_playlist el = Ok pl
     /\ (is_real el = true ->
         exists fp, playlist_filepath c f pl = Ok fp /\ path_exists (g_fs g1) fp = true))
  /\ g_total g1 = (g_total g - folders_decrement pls)%Z.
Proof.
  induction pls as [|el pls IH]; intros g g1 H; cbn [fold_res] in H.
  - inversion H; subst. split; [intros el []|]. cbn. lia.
  - destruct (playlist_step c tracks f g el) as [g'|e] eqn:Hs; cbn [bind] in H; [|discriminate H].
    destruct (playlist_step_ok c tracks f g g' el Hs) as [pl [Hm [_ [Ht Hr]]]].
    destruct (IH g' g1 H) as [Hall Htot].
    split.
    + intros el' [<-|Hin]; [|exact (Hall el' Hin)].
      exists pl. split; [exact Hm|]. intros Hreal.
      destruct (Hr Hreal) as [fp [Hfp Hex]]. exists fp. split; [exact Hfp|].
      exact (fold_playlists_mono c tracks f pls g' g1 H fp Hex).
    + rewrite Htot, Ht. cbn [folders_decrement fold_right]. fold (folders_decrement pls). lia.
Qed.

(** When every real playlist's output path exists, the loop skips them
    all: only [total_playlists] changes. *)
Lemma fold_playlists_skip (c : Config) (tracks : list (string * node)) (f : FolderTable)
    (pls : list PlaylistEl) :
  forall g,
  (forall el, In el pls ->
     exists pl, make_playlist el = Ok pl
     /\ (is_real el = true ->
         exists fp, playlist_filepath c f pl = Ok fp /\ path_exists (g_fs g) fp = true)) ->
  fold_res (playlist_step c tracks f) g pls
  = Ok (mkGSt (g_fs g) (g_writes g) (g_in g) (g_not_found g) (g_incomplete g)
          (g_total g - folders_decrement pls)).
Proof.
  induction pls as [|el pls IH]; intros g Hall; cbn [fold_res].
  - destruct g; cbn. f_equal. f_equal. lia.
  - destruct (Hall el (or_introl eq_refl)) as [pl [Hm Hr]].
    assert (Hrest : forall el', In el' pls ->
              exists pl', make_playlist el' = Ok pl'
              /\ (is_real el' = true ->
                  exists fp, playlist_filepath c f pl' = Ok fp
                             /\ path_exists (g_fs g) fp = true)).
    { intros el' Hin. exact (Hall el' (or_intror Hin)). }
    unfold playlist_step at 1. rewrite Hm. cbn [bind].
    unfold is_real in Hr. rewrite Hm in Hr.
    cbn [folders_decrement fold_right]. fold (folders_decrement pls).
    unfold folder_decrement. rewrite Hm.
    destruct (existsb (String.eqb (pl_name pl)) pl_ignores) eqn:Hi; cbn [negb andb] in Hr.
    + cbn [bind]. rewrite (IH g Hrest). destruct g; cbn [g_fs g_writes g_in g_not_found g_incomplete g_total]. do 2 f_equal; lia.
    + destruct (is_folder el) eqn:Hf; cbn [negb] in Hr.
      * cbn [bind].
        rewrite (IH (mkGSt (g_fs g) (g_writes g) (g_in g) (g_not_found g) (g_incomplete g)
                       (g_total g - 1)) Hrest).
        cbn [g_fs g_writes g_in g_not_found g_incomplete g_total]. do 2 f_equal; lia.
      * destruct (Hr eq_refl) as [fp [Hfp Hex]].
        rewrite Hfp. cbn [bind]. rewrite Hex. cbn [bind].
        rewrite (IH g Hrest). destruct g; cbn [g_fs g_writes g_in g_not_found g_incomplete g_total]. do 2 f_equal; lia.
Qed.

(** C3 (as the code does it): after a first run that completes, a second
    run on the same library and the file system the first run left skips
    every real playlist, writing no playlist and no [.missing] file, but it
    writes [00incomplete_playlists.txt] and [00tracks_not_found.m3u] again,
    now empty, and its summary reports 0 tracks not found out of 0 and 0
    incomplete playlists, over the first run's playlist total. *)
Theorem rerun_skips_playlists (c : Config) (lib : Library) (fs : FS) (o1 : RunOut)
    (H1 : parse_xml c lib fs = Ok o1) :
  let incomplete_file := playlist_dir c ++ "00incomplete_playlists.txt" in
  let not_found_file := playlist_dir c ++ "00tracks_not_found.m3u" in
  parse_xml c lib (out_fs o1)
  = Ok (mkRunOut (fs_write (fs_write (out_fs o1) incomplete_file) not_found_file)
          [(incomplete_file, []); (not_found_file, [])]
          (mkSummary 0 0 0 (sum_playlists (out_summary o1)))).
Proof.
  cbv zeta. unfold parse_xml in H1 |- *.
  destruct (get_pl_folders (lib_playlists lib)) as [f|e]; cbn [bind] in H1 |- *; [|discriminate H1].
  destruct (fold_res (playlist_step c (lib_tracks lib) f) _ (lib_playlists lib)) as [g1|e]
    eqn:Hfold; cbn [bind] in H1; [|discriminate H1].
  inversion H1; subst. cbn [out_fs out_summary sum_playlists write_file g_fs g_total].
  destruct (fold_playlists_first c (lib_tracks lib) f (lib_playlists lib) _ g1 Hfold)
    as [Hall Htot].
  rewrite fold_playlists_skip.
  - cbn [write_file g_fs g_writes g_in g_not_found g_incomplete g_total length app].
    rewrite Htot. reflexivity.
  - intros el Hin. destruct (Hall el Hin) as [pl [Hm Hr]].
    exists pl. split; [exact Hm|]. intros Hreal.
    destruct (Hr Hreal) as [fp [Hfp Hex]]. exists fp. split; [exact Hfp|].
    cbn [g_fs]. apply path_exists_write_mono, path_exists_write_mono. exact Hex.
Qed.

Lemma rerun_skips_playlists_witness :
  match parse_xml (Sample.cfg Warn) Sample.lib_mix Sample.empty_fs with
  | Ok o1 =>
      option_map out_writes (match parse_xml (Sample.cfg Warn) Sample.lib_mix (out_fs o1) with
                             | Ok o2 => Some o2 | Err _ => None end)
      = Some [("/p/00incomplete_playlists.txt", []); ("/p/00tracks_not_found.m3u", [])]
  | Err _ => False
  end.
Proof.
  destruct (parse_xml (Sample.cfg Warn) Sample.lib_mix Sample.empty_fs) as [o1|e] eqn:H1.
  - rewrite (rerun_skips_playlists (Sample.cfg Warn) Sample.lib_mix Sample.empty_fs o1 H1).
    reflexivity.
  - vm_compute in H1. discriminate H1.
Defined.

(** ** Further properties of the code *)

Lemma las_app (a b : string) :
  list_ascii_of_string (a ++ b) = app (list_ascii_of_string a) (list_ascii_of_string b).
Proof. induction a as [|x a IH]; simpl; [reflexivity|]. rewrite IH. reflexivity. Qed.

Lemma sola_app (l1 l2 : list ascii) :
  string_of_list_ascii (app l1 l2) = string_of_list_ascii l1 ++ string_of_list_ascii l2.
Proof. induction l1 as [|x l1 IH]; simpl; [reflexivity|]. rewrite IH. reflexivity. Qed.

Lemma last_char_snoc (p : string) (c : ascii) : last_char (p ++ str1 c) = Some c.
Proof. unfold last_char. rewrite las_app, rev_app_distr. reflexivity. Qed.

Lemma drop_last_snoc (p : string) (c : ascii) : drop_last (p ++ str1 c) = p.
Proof.
  unfold drop_last. rewrite las_app. cbn [list_ascii_of_string str1].
  rewrite removelast_last. apply string_of_list_ascii_of_string.
Qed.

Lemma last_char_some (p : string) (l : ascii) :
  last_char p = Some l -> exists q, p = q ++ str1 l.
Proof.
  unfold last_char. intros H.
  destruct (rev (list_ascii_of_string p)) as [|x r] eqn:E; [discriminate|].
  injection H as ->.
  exists (string_of_list_ascii (rev r)).
  rewrite <- (string_of_list_ascii_of_string p).
  rewrite <- (rev_involutive (list_ascii_of_string p)), E. cbn [rev].
  rewrite sola_app. reflexivity.
Qed.

Lemma last_char_none (p : string) : last_char p = None -> p = "".
Proof.
  unfold last_char. destruct p as [|c p]; [reflexivity|].
  cbn [list_ascii_of_string rev]. destruct (rev (list_ascii_of_string p)); discriminate.
Qed.

Lemma smap_app (f : ascii -> ascii) (a b : string) : smap f (a ++ b) = smap f a ++ smap f b.
Proof. induction a as [|x a IH]; simpl; [reflexivity|]. rewrite IH. reflexivity. Qed.

Lemma smap_length (f : ascii -> ascii) (s : string) : String.length (smap f s) = String.length s.
Proof. induction s as [|x s IH]; simpl; congruence. Qed.

Lemma str_contains_str1_false (c : ascii) (e : string) :
  str_contains (str1 c) e = false -> forall r, replace_char c r e = e.
Proof.
  induction e as [|d e IH]; intros H r; [reflexivity|].
  cbn [str_contains String.prefix str1] in H.
  destruct (ascii_dec c d) as [E|Hne]; [destruct e; discriminate H|].
  cbn [replace_char]. apply Ascii.eqb_neq in Hne. rewrite Hne.
  rewrite (IH H r). reflexivity.
Qed.

Lemma replace_char_smap (c r : ascii) (s : string) :
  replace_char c (str1 r) s = smap (fun d => if Ascii.eqb c d then r else d) s.
Proof.
  induction s as [|d s IH]; [reflexivity|]. cbn [replace_char smap].
  rewrite IH. destruct (Ascii.eqb c d); reflexivity.
Qed.

Lemma smap_smap (f g : ascii -> ascii) (s : string) : smap g (smap f s) = smap (fun d => g (f d)) s.
Proof. induction s as [|x s IH]; simpl; congruence. Qed.

Lemma smap_ext (f g : ascii -> ascii) (s : string) :
  (forall d, f d = g d) -> smap f s = smap g s.
Proof. intros H. induction s as [|x s IH]; simpl; congruence. Qed.

Lemma replace_step (c : ascii) (e : string) :
  (if str_contains (str1 c) e then replace_char c "_" e else e) = replace_char c "_" e.
Proof.
  destruct (str_contains (str1 c) e) eqn:Hc; [reflexivity|].
  symmetry. apply str_contains_str1_false, Hc.
Qed.

Lemma fold_replace (cs : list ascii) (s : string) (f : ascii -> ascii) :
  fold_left (fun e c => if str_contains (str1 c) e then replace_char c "_" e else e) cs (smap f s)
  = smap (fun d => fold_left (fun d c => if Ascii.eqb c d then "_"%char else d) cs (f d)) s.
Proof.
  revert f. induction cs as [|c cs IH]; intros f; cbn [fold_left]; [reflexivity|].
  rewrite replace_step. change "_" with (str1 "_").
  rewrite replace_char_smap, smap_smap, IH. reflexivity.
Qed.

Lemma smap_id (s : string) : smap (fun d => d) s = s.
Proof. induction s as [|x s IH]; simpl; congruence. Qed.

Lemma san_char_fold (d : ascii) :
  fold_left (fun d c => if Ascii.eqb c d then "_"%char else d) invalid_chars d = san_char d.
Proof. destruct d as [[] [] [] [] [] [] [] []]; vm_compute; reflexivity. Qed.

Lemma sanitize_fold (entry : string) :
  fold_left (fun e c => if str_contains (str1 c) e then replace_char c "_" e else e)
    invalid_chars entry = smap san_char entry.
Proof.
  rewrite <- (smap_id entry) at 1. rewrite fold_replace.
  apply smap_ext. intros d. apply san_char_fold.
Qed.

Lemma san_char_valid (d : ascii) : ~ In (san_char d) invalid_chars.
Proof. destruct d as [[] [] [] [] [] [] [] []]; vm_compute; intuition discriminate. Qed.

Lemma smap_valid (entry : string) (d : ascii) :
  In d (list_ascii_of_string (smap san_char entry)) -> ~ In d invalid_chars.
Proof.
  induction entry as [|x s IH]; cbn [smap list_ascii_of_string In]; [tauto|].
  intros [<-|H]; [apply san_char_valid|exact (IH H)].
Qed.

Lemma sanitize_path_cases (entry attribute r : string) :
  sanitize_path entry attribute = Ok r ->
  (attribute = "Name" /\ r = smap san_char entry)
  \/ (attribute <> "Name" /\ exists q l l',
        smap san_char entry = q ++ str1 l
        /\ l' = (if Ascii.eqb l "." then "_"%char else l)
        /\ ((q = "" /\ r = str1 l')
            \/ exists f q', q = String f q'
               /\ r = String (if Ascii.eqb f "." then "_"%char else f) (q' ++ str1 l'))).
Proof.
  unfold sanitize_path. rewrite sanitize_fold. intros H.
  destruct (String.eqb attribute "Name") eqn:Ea; cbn [negb] in H.
  - left. apply String.eqb_eq in Ea. injection H as <-. split; [exact Ea|reflexivity].
  - right. apply String.eqb_neq in Ea. split; [exact Ea|].
    destruct (last_char (smap san_char entry)) as [l|] eqn:Hl; [|discriminate H].
    destruct (last_char_some _ _ Hl) as [q Hq]. rewrite Hq in H.
    exists q, l, (if Ascii.eqb l "." then "_"%char else l).
    split; [exact Hq|split; [reflexivity|]].
    destruct (Ascii.eqb l ".") eqn:Ed;
      [rewrite drop_last_snoc in H; change "_" with (str1 "_") in H|].
    + destruct q as [|f q'].
      * left. split; [reflexivity|]. injection H as <-. reflexivity.
      * right. exists f, q'. split; [reflexivity|].
        cbn [append] in H. destruct (Ascii.eqb f ".") eqn:Ef; injection H as <-; reflexivity.
    + destruct q as [|f q'].
      * left. split; [reflexivity|]. cbn [append str1] in H. rewrite Ed in H.
        injection H as <-. reflexivity.
      * right. exists f, q'. split; [reflexivity|].
        cbn [append] in H. destruct (Ascii.eqb f ".") eqn:Ef; injection H as <-; reflexivity.
Qed.

Lemma smap_san_fix (r : string) :
  (forall d, In d (list_ascii_of_string r) -> ~ In d invalid_chars) -> smap san_char r = r.
Proof.
  induction r as [|x r IH]; intros H; [reflexivity|]. cbn [smap].
  rewrite IH by (intros d Hd; apply H; right; exact Hd).
  unfold san_char. destruct (existsb (Ascii.eqb x) invalid_chars) eqn:E; [|reflexivity].
  exfalso. apply existsb_exists in E as [y [Hy Ey]]. apply Ascii.eqb_eq in Ey. subst y.
  exact (H x (or_introl eq_refl) Hy).
Qed.

Lemma str_length_app (a b : string) : String.length (a ++ b) = (String.length a + String.length b)%nat.
Proof. induction a as [|x a IH]; simpl; congruence. Qed.

Lemma str1_app_cons (f : ascii) (q l : string) : String f (q ++ l) = (String f q) ++ l.
Proof. reflexivity. Qed.

(** X1: [sanitize_path] never fails for the attribute "Name"; for any other
    attribute it fails ([IndexError]) exactly on the empty string. *)
Theorem sanitize_path_fails_iff_empty (entry attribute : string) :
  is_err (sanitize_path entry attribute)
  = negb (String.eqb attribute "Name") && String.eqb entry "".
Proof.
  unfold sanitize_path. rewrite sanitize_fold.
  destruct (String.eqb attribute "Name"); cbn [negb andb]; [reflexivity|].
  destruct entry as [|x s]; [reflexivity|]. cbn [String.eqb].
  destruct (last_char (smap san_char (String x s))) as [l|] eqn:Hl;
    [|apply last_char_none in Hl; discriminate Hl].
  destruct (if Ascii.eqb l "." then drop_last (smap san_char (String x s)) ++ "_"
            else smap san_char (String x s)) as [|f rest] eqn:Ee.
  - exfalso. destruct (Ascii.eqb l "."); [|discriminate Ee].
    exact (str_app_nonempty _ "_" ltac:(discriminate) Ee).
  - destruct (Ascii.eqb f "."); reflexivity.
Qed.

Lemma sanitize_path_valid (entry attribute r : string)
    (H : sanitize_path entry attribute = Ok r) :
  (forall d, In d (list_ascii_of_string r) -> ~ In d invalid_chars)
  /\ (attribute <> "Name" ->
      last_char r <> Some "."%char /\ forall rest, r <> String "." rest).
Proof.
  destruct (sanitize_path_cases _ _ _ H) as [[Ha ->]|[Ha [q [l [l' [Hq [Hl' Hr]]]]]]].
  - split; [apply smap_valid|]. intros Hn. contradiction.
  - assert (Hv := smap_valid entry). rewrite Hq in Hv.
    assert (Hl'd : l' <> "."%char /\ (l' = "_"%char \/ l' = l)).
    { subst l'. destruct (Ascii.eqb l ".") eqn:E; [split; [discriminate|left; reflexivity]|].
      split; [|right; reflexivity]. intros ->. discriminate E. }
    destruct Hl'd as [Hnd Hlo].
    destruct Hr as [[-> ->]|[f [q' [-> ->]]]].
    + split.
      * intros d [<- | [ ] ]. destruct Hlo as [-> | ->]; [vm_compute; intuition discriminate|].
        apply Hv. rewrite las_app. apply in_or_app. right. left. reflexivity.
      * intros _. split.
        -- unfold last_char. cbn. intros [=]. contradiction.
        -- intros rest [=]. contradiction.
    + split.
      * intros d Hd. cbn [list_ascii_of_string] in Hd. rewrite las_app in Hd.
        cbn [list_ascii_of_string str1] in Hd.
        destruct Hd as [<- | Hd].
        -- destruct (Ascii.eqb f ".") eqn:Ef; [vm_compute; intuition discriminate|].
           apply Hv. left. reflexivity.
        -- apply in_app_or in Hd as [Hd|[<- | [ ] ]].
           ++ apply Hv. right. rewrite las_app. apply in_or_app. left. exact Hd.
           ++ destruct Hlo as [-> | ->]; [vm_compute; intuition discriminate|].
              apply Hv. rewrite las_app. apply in_or_app. right. left. reflexivity.
      * intros _. split.
        -- rewrite str1_app_cons, last_char_snoc. intros [=]. contradiction.
        -- intros rest [= Ef _]. destruct (Ascii.eqb f ".") eqn:E; [discriminate Ef|].
           subst f. discriminate E.
Qed.

(** X2: a string returned by [sanitize_path] holds none of the invalid
    characters; for an attribute other than "Name" it neither starts nor
    ends with a period. *)
Theorem sanitize_path_clean (entry attribute r : string)
    (H : sanitize_path entry attribute = Ok r) :
  (forall d, In d (list_ascii_of_string r) -> ~ In d invalid_chars)
  /\ (attribute <> "Name" ->
      last_char r <> Some "."%char /\ forall rest, r <> String "." rest).
Proof. exact (sanitize_path_valid entry attribute r H). Qed.

Lemma sanitize_path_clean_witness :
  (forall d, In d (list_ascii_of_string "_a_b_") -> ~ In d invalid_chars)
  /\ ("Album" <> "Name" ->
      last_char "_a_b_" <> Some "."%char /\ forall rest, "_a_b_" <> String "." rest).
Proof. exact (sanitize_path_clean ".a/b." "Album" "_a_b_" ltac:(vm_compute; reflexivity)). Defined.

(** X3: [sanitize_path] keeps the length of its input, and sanitizing a
    result again with the same attribute returns it unchanged. *)
Theorem sanitize_path_stable (entry attribute r : string)
    (H : sanitize_path entry attribute = Ok r) :
  String.length r = String.length entry /\ sanitize_path r attribute = Ok r.
Proof.
  split.
  - destruct (sanitize_path_cases _ _ _ H) as [[_ ->]|[_ [q [l [l' [Hq [_ Hr]]]]]]];
      [apply smap_length|].
    rewrite <- (smap_length san_char entry), Hq.
    destruct Hr as [[-> ->]|[f [q' [-> ->]]]]; [reflexivity|].
    cbn [append String.length]. rewrite !str_length_app. reflexivity.
  - destruct (sanitize_path_valid _ _ _ H) as [Hv He].
    unfold sanitize_path. rewrite sanitize_fold, (smap_san_fix r Hv).
    destruct (String.eqb attribute "Name") eqn:Ea; cbn [negb]; [reflexivity|].
    apply String.eqb_neq in Ea. destruct (He Ea) as [Hlast Hfirst].
    destruct (last_char r) as [l|] eqn:Hl.
    + destruct (Ascii.eqb l ".") eqn:Ed.
      { apply Ascii.eqb_eq in Ed. subst. contradiction. }
      destruct r as [|f rest]; [discriminate Hl|].
      destruct (Ascii.eqb f ".") eqn:Ef; [|reflexivity].
      apply Ascii.eqb_eq in Ef. subst. exfalso. exact (Hfirst rest eq_refl).
    + apply last_char_none in Hl. subst r.
      destruct (sanitize_path_cases _ _ _ H) as [[Hn _]|[_ [q [l [l' [_ [_ Hr]]]]]]];
        [contradiction|].
      destruct Hr as [[_ E]|[f [q' [_ E]]]]; discriminate E.
Qed.

Lemma sanitize_path_stable_witness :
  String.length "_a_b_" = String.length ".a/b."
  /\ sanitize_path "_a_b_" "Album" = Ok "_a_b_".
Proof. apply (sanitize_path_stable ".a/b." "Album" "_a_b_"). vm_compute. reflexivity. Defined.

Lemma replace_char_app (c : ascii) (r a b : string) :
  replace_char c r (a ++ b) = replace_char c r a ++ replace_char c r b.
Proof.
  induction a as [|x a IH]; [reflexivity|]. cbn [append replace_char].
  rewrite IH. destruct (Ascii.eqb c x); [symmetry; apply str_app_assoc|reflexivity].
Qed.

Lemma sanitize_xml_app (a b : string) : sanitize_xml (a ++ b) = sanitize_xml a ++ sanitize_xml b.
Proof. unfold sanitize_xml. rewrite !replace_char_app. reflexivity. Qed.

Lemma sanitize_xml_char (c : ascii) :
  sanitize_xml (str1 c)
  = if Ascii.eqb c "&" then "&amp;" else if Ascii.eqb c "<" then "&lt;"
    else if Ascii.eqb c ">" then "&gt;" else str1 c.
Proof. destruct c as [[] [] [] [] [] [] [] []]; vm_compute; reflexivity. Qed.

Lemma xml_unescape_other (c : ascii) (r : string) :
  c <> "&"%char -> xml_unescape (String c r) = String c (xml_unescape r).
Proof.
  intros H. destruct c as [[] [] [] [] [] [] [] []]; try reflexivity. contradiction.
Qed.

Lemma sanitize_xml_roundtrip (text : string) :
  (forall d, In d (list_ascii_of_string (sanitize_xml text)) ->
     d <> "<"%char /\ d <> ">"%char)
  /\ xml_unescape (sanitize_xml text) = text.
Proof.
  induction text as [|c s [IHv IHr]]; [split; [intros d [ ] | reflexivity]|].
  change (String c s) with (str1 c ++ s). rewrite sanitize_xml_app, sanitize_xml_char.
  destruct (Ascii.eqb_spec c "&") as [->|H1];
    [|destruct (Ascii.eqb_spec c "<") as [->|H2];
      [|destruct (Ascii.eqb_spec c ">") as [->|H3]]].
  - split; [|cbn; rewrite IHr; reflexivity].
    intros d Hd. rewrite las_app in Hd. apply in_app_or in Hd as [Hd|Hd]; [|exact (IHv d Hd)].
    cbn in Hd. intuition (subst; discriminate).
  - split; [|cbn; rewrite IHr; reflexivity].
    intros d Hd. rewrite las_app in Hd. apply in_app_or in Hd as [Hd|Hd]; [|exact (IHv d Hd)].
    cbn in Hd. intuition (subst; discriminate).
  - split; [|cbn; rewrite IHr; reflexivity].
    intros d Hd. rewrite las_app in Hd. apply in_app_or in Hd as [Hd|Hd]; [|exact (IHv d Hd)].
    cbn in Hd. intuition (subst; discriminate).
  - split; [|cbn [str1 append]; rewrite xml_unescape_other, IHr by exact H1; reflexivity].
    intros d Hd. rewrite las_app in Hd. apply in_app_or in Hd as [Hd|Hd]; [|exact (IHv d Hd)].
    cbn in Hd. destruct Hd as [<- | [ ] ]. split; assumption.
Qed.

(** X4: [sanitize_xml] leaves no [<] or [>] in its result, and decoding
    the three entities gives back the original text. *)
Theorem sanitize_xml_escapes (text : string) :
  (forall d, In d (list_ascii_of_string (sanitize_xml text)) ->
     d <> "<"%char /\ d <> ">"%char)
  /\ xml_unescape (sanitize_xml text) = text.
Proof. exact (sanitize_xml_roundtrip text). Qed.




Lemma ensure_one_err (s : ascii) (p : string) :
  match ensure_one s p with Ok _ => p <> "" | Err e => p = "" /\ e = IndexError end.
Proof.
  unfold ensure_one. destruct (last_char p) as [l|] eqn:Hl.
  - destruct (Ascii.eqb l s); intros ->; discriminate Hl.
  - split; [apply last_char_none, Hl|reflexivity].
Qed.


Lemma split_on_cons (c : ascii) (s : string) : exists w ws, split_on c s = w :: ws.
Proof.
  destruct s as [|x s]; [eexists _, _; reflexivity|]. cbn [split_on].
  destruct (split_on c s) as [|w ws]; [eexists _, _; reflexivity|].
  destruct (Ascii.eqb x c); eexists _, _; reflexivity.
Qed.

Lemma split_on_app_sep (c : ascii) (a b : string) :
  split_on c (a ++ String c b) = app (split_on c a) (split_on c b).
Proof.
  induction a as [|x a IH].
  - cbn [append split_on]. destruct (split_on_cons c b) as [w [ws ->]].
    rewrite Ascii.eqb_refl. reflexivity.
  - cbn [append split_on]. rewrite IH.
    destruct (split_on_cons c a) as [w [ws ->]]. cbn [app].
    destruct (Ascii.eqb x c); reflexivity.
Qed.

Lemma join_split (c : ascii) (s : string) : join (str1 c) (split_on c s) = s.
Proof.
  induction s as [|x s IH]; [reflexivity|]. cbn [split_on].
  destruct (split_on_cons c s) as [w [ws Hs]]. rewrite Hs in *.
  destruct (Ascii.eqb_spec x c) as [->|Hne].
  - cbn [join]. destruct ws; rewrite <- IH; reflexivity.
  - destruct ws as [|w' ws]; cbn [join] in *; rewrite <- IH; reflexivity.
Qed.

Lemma join_snoc (sep y : string) (l : list string) :
  l <> [] -> join sep (app l [y]) = join sep l ++ sep ++ y.
Proof.
  induction l as [|a l IH]; intros H; [contradiction|].
  destruct l as [|b l]; [reflexivity|].
  cbn [app]. change (join sep (a :: b :: app l [y])) with (a ++ sep ++ join sep (b :: app l [y])).
  change (b :: app l [y]) with (app (b :: l) [y]). rewrite IH by discriminate.
  change (join sep (a :: b :: l)) with (a ++ sep ++ join sep (b :: l)).
  rewrite !str_app_assoc. reflexivity.
Qed.

Lemma join_app_last (sep x y : string) (l : list string) :
  join sep (app l [x ++ y]) = join sep (app l [x]) ++ y.
Proof.
  destruct l as [|a l]; [reflexivity|].
  rewrite !join_snoc by discriminate. rewrite !str_app_assoc. reflexivity.
Qed.

Lemma map_last_snoc (f : string -> string) (l : list string) (x : string) :
  map_last f (app l [x]) = app l [f x].
Proof.
  unfold map_last. rewrite rev_app_distr. cbn [rev app].
  rewrite rev_involutive. reflexivity.
Qed.

Lemma split_on_snoc (c : ascii) (s : string) : exists l x, split_on c s = app l [x].
Proof.
  destruct (split_on_cons c s) as [w [ws Hs]].
  destruct (exists_last (l := w :: ws) ltac:(discriminate)) as [l [x Hx]].
  exists l, x. rewrite Hs. exact Hx.
Qed.

Lemma missing_m3u (c : Config) (fp : string) :
  xml_output c = false -> missing_file_path c fp = fp ++ ".missing".
Proof.
  intros Hx. unfold missing_file_path. rewrite Hx.
  destruct (split_on_snoc (dir_sep_char c) fp) as [l [x Hs]].
  rewrite Hs, map_last_snoc, join_app_last, <- Hs. unfold dir_sep.
  rewrite join_split. reflexivity.
Qed.

Lemma missing_xml (c : Config) (d : string) :
  xml_output c = true ->
  missing_file_path c (d ++ dir_sep c ++ "playlist.xml") = d ++ dir_sep c ++ "playlist.missing".
Proof.
  intros Hx. unfold missing_file_path. rewrite Hx. unfold dir_sep, str1.
  cbn [append]. rewrite split_on_app_sep.
  replace (split_on (dir_sep_char c) "playlist.xml") with ["playlist.xml"]
    by (unfold dir_sep_char; destruct (use_dos_filepaths c); reflexivity).
  rewrite map_last_snoc. destruct (split_on_cons (dir_sep_char c) d) as [w [ws Hs]].
  rewrite join_snoc by (rewrite Hs; discriminate).
  change (String (dir_sep_char c) "") with (str1 (dir_sep_char c)). rewrite join_split.
  reflexivity.
Qed.

(** X7: the missing-tracks file of a playlist is written beside it: for an
    M3U playlist its path is the playlist's path plus [".missing"]; for an
    XML playlist, whose path ends in the separator and ["playlist.xml"], it
    is the same directory with ["playlist.missing"]. *)
Theorem missing_file_beside_playlist (c : Config) (folders : FolderTable) (pl : Playlist)
    (fp : string) (H : playlist_filepath c folders pl = Ok fp) :
  if xml_output c
  then exists d, fp = d ++ dir_sep c ++ "playlist.xml"
                 /\ missing_file_path c fp = d ++ dir_sep c ++ "playlist.missing"
  else missing_file_path c fp = fp ++ ".missing".
Proof.
  destruct (xml_output c) eqn:Hx; [|apply missing_m3u, Hx].
  unfold playlist_filepath in H. inv_bind H. rewrite Hx in H.
  assert (Hfp : join (dir_sep c) [playlist_dir c ++ s; s0; "playlist.xml"] = fp) by congruence.
  subst fp. exists ((playlist_dir c ++ s) ++ dir_sep c ++ s0).
  change (join (dir_sep c) [playlist_dir c ++ s; s0; "playlist.xml"])
    with ((playlist_dir c ++ s) ++ dir_sep c ++ s0 ++ dir_sep c ++ "playlist.xml").
  replace ((playlist_dir c ++ s) ++ dir_sep c ++ s0 ++ dir_sep c ++ "playlist.xml")
    with (((playlist_dir c ++ s) ++ dir_sep c ++ s0) ++ dir_sep c ++ "playlist.xml")
    by (rewrite !str_app_assoc; reflexivity).
  split; [reflexivity|].
  apply missing_xml, Hx.
Qed.

Lemma missing_file_beside_playlist_witness :
  missing_file_path (Sample.cfg Warn) "/p//Mix.m3u" = "/p//Mix.m3u" ++ ".missing".
Proof.
  exact (missing_file_beside_playlist (Sample.cfg Warn) [] (mkPlaylist "Mix" "1" "")
           "/p//Mix.m3u" eq_refl).
Defined.

Lemma str_app_nil_r (s : string) : s ++ "" = s.
Proof. induction s as [|x s IH]; simpl; congruence. Qed.

Lemma parent_folder_acc (fuel : nat) (t : FolderTable) (pid acc sep : string) :
  parent_folder fuel t pid acc sep
  = match parent_folder fuel t pid "" sep with
    | Ok q => Ok (q ++ acc)
    | Err e => Err e
    end.
Proof.
  revert pid acc. induction fuel as [|fuel IH]; intros pid acc; [reflexivity|].
  cbn [parent_folder]. destruct (String.eqb pid ""); [reflexivity|].
  destruct (lookup_folder pid t) as [[name parent]|]; [|reflexivity].
  rewrite (IH parent (name ++ sep ++ acc)), (IH parent (name ++ sep ++ "")).
  destruct (parent_folder fuel t parent "" sep); [|reflexivity].
  rewrite str_app_nil_r, !str_app_assoc. reflexivity.
Qed.

(** X8: [_parent_folder] only ever appends [path_so_far] to the folder
    path it builds, and the folder path below a folder is its parent's
    folder path followed by the folder's own name and the separator, so
    the names run from the top-level folder down to the playlist's. *)
Theorem parent_folder_nesting (fuel : nat) (t : FolderTable)
    (pid acc sep name parent : string)
    (Hpid : pid <> "") (Hl : lookup_folder pid t = Some (name, parent)) :
  parent_folder fuel t pid acc sep
    = match parent_folder fuel t pid "" sep with Ok q => Ok (q ++ acc) | Err e => Err e end
  /\ parent_folder (S fuel) t pid "" sep
    = match parent_folder fuel t parent "" sep with
      | Ok q => Ok (q ++ name ++ sep)
      | Err e => Err e
      end.
Proof.
  split; [apply parent_folder_acc|].
  cbn [parent_folder]. apply String.eqb_neq in Hpid. rewrite Hpid, Hl.
  rewrite parent_folder_acc, str_app_nil_r. reflexivity.
Qed.

Lemma parent_folder_nesting_witness :
  parent_folder 3 [("P", ("Parent", "G")); ("G", ("Grandparent", ""))] "P" "" "/"
  = Ok "Grandparent/Parent/".
Proof.
  rewrite (proj2 (parent_folder_nesting 2 [("P", ("Parent", "G")); ("G", ("Grandparent", ""))]
                    "P" "" "/" "Parent" "G" ltac:(discriminate) eq_refl)).
  vm_compute. reflexivity.
Defined.



Lemma get_pl_folders_from_sound (pls : list PlaylistEl) (acc t : FolderTable) :
  get_pl_folders_from pls acc = Ok t ->
  forall k v, lookup_folder k t = Some v ->
  lookup_folder k acc = Some v
  \/ exists el pl, In el pls /\ is_folder el = true /\ make_playlist el = Ok pl
                   /\ pl_id pl = k /\ v = (pl_name pl, pl_parent_id pl).
Proof.
  revert acc. induction pls as [|el pls IH]; intros acc H k v Hk.
  - injection H as <-. left. exact Hk.
  - cbn [get_pl_folders_from] in H. inv_bind H.
    destruct (is_folder el) eqn:Hf; cbn [negb] in H.
    + destruct (IH _ H k v Hk) as [Ha|[el' [pl' [Hin Hrest]]]].
      * cbn [lookup_folder] in Ha. destruct (String.eqb_spec k (pl_id p)) as [->|Hne].
        -- injection Ha as <-. right. exists el, p. repeat split; auto. left. reflexivity.
        -- left. exact Ha.
      * right. exists el', pl'. split; [right; exact Hin|exact Hrest].
    + destruct (IH _ H k v Hk) as [Ha|[el' [pl' [Hin Hrest]]]]; [left; exact Ha|].
      right. exists el', pl'. split; [right; exact Hin|exact Hrest].
Qed.

Lemma get_pl_folders_from_post (post : list PlaylistEl) (acc t : FolderTable) (k : string) :
  get_pl_folders_from post acc = Ok t ->
  (forall el pl, In el post -> is_folder el = true -> make_playlist el = Ok pl -> pl_id pl <> k) ->
  lookup_folder k t = lookup_folder k acc.
Proof.
  revert acc. induction post as [|el post IH]; intros acc H Hn.
  - injection H as <-. reflexivity.
  - cbn [get_pl_folders_from] in H. inv_bind H.
    assert (Hn' : forall el' pl', In el' post -> is_folder el' = true ->
                    make_playlist el' = Ok pl' -> pl_id pl' <> k)
      by (intros el' pl' Hin; apply Hn; right; exact Hin).
    destruct (is_folder el) eqn:Hf; cbn [negb] in H; rewrite (IH _ H Hn'); [|reflexivity].
    cbn [lookup_folder]. destruct (String.eqb_spec k (pl_id p)) as [Hk|]; [|reflexivity].
    exfalso. exact (Hn el p (or_introl eq_refl) Hf E (eq_sym Hk)).
Qed.

Lemma get_pl_folders_from_app (pre rest : list PlaylistEl) (acc t : FolderTable) :
  get_pl_folders_from (app pre rest) acc = Ok t ->
  exists acc', get_pl_folders_from rest acc' = Ok t.
Proof.
  revert acc. induction pre as [|el pre IH]; intros acc H; [exists acc; exact H|].
  cbn [app get_pl_folders_from] in H. inv_bind H.
  destruct (negb (is_folder el)); eapply IH; exact H.
Qed.

(** X10: the folder table of [get_pl_folders] holds only folders: every
    entry is the name and parent ID of a folder playlist under its
    persistent ID; and a folder's entry is there unless a later folder
    with the same persistent ID replaced it ([dict.update]). *)
Theorem get_pl_folders_table (pls : list PlaylistEl) (t : FolderTable)
    (H : get_pl_folders pls = Ok t) :
  (forall k v, lookup_folder k t = Some v ->
     exists el pl, In el pls /\ is_folder el = true /\ make_playlist el = Ok pl
                   /\ pl_id pl = k /\ v = (pl_name pl, pl_parent_id pl))
  /\ (forall pre el post pl, pls = app pre (el :: post) -> is_folder el = true ->
      make_playlist el = Ok pl ->
      (forall el' pl', In el' post -> is_folder el' = true -> make_playlist el' = Ok pl' ->
                       pl_id pl' <> pl_id pl) ->
      lookup_folder (pl_id pl) t = Some (pl_name pl, pl_parent_id pl)).
Proof.
  split.
  - intros k v Hk. destruct (get_pl_folders_from_sound _ _ _ H k v Hk) as [Ha|Hs];
      [discriminate Ha|exact Hs].
  - intros pre el post pl -> Hf Hm Hlater. unfold get_pl_folders in H.
    destruct (get_pl_folders_from_app _ _ _ _ H) as [acc Hr].
    cbn [get_pl_folders_from] in Hr. rewrite Hm in Hr. cbn [bind] in Hr.
    rewrite Hf in Hr. cbn [negb] in Hr.
    rewrite (get_pl_folders_from_post _ _ _ _ Hr Hlater). cbn [lookup_folder].
    rewrite String.eqb_refl. reflexivity.
Qed.

Lemma get_pl_folders_table_witness :
  lookup_folder "X" [("X", ("New", "")); ("X", ("Old", ""))] = Some ("New", "").
Proof.
  exact (proj2 (get_pl_folders_table
    [mkPlaylistEl [Key "Name"; Str (Some "Old");
       Key "Playlist Persistent ID"; Str (Some "X"); Key "Folder"; Tag "true"] [];
     mkPlaylistEl [Key "Name"; Str (Some "New");
       Key "Playlist Persistent ID"; Str (Some "X"); Key "Folder"; Tag "true"] []]
    [("X", ("New", "")); ("X", ("Old", ""))] eq_refl)
    [mkPlaylistEl [Key "Name"; Str (Some "Old");
       Key "Playlist Persistent ID"; Str (Some "X"); Key "Folder"; Tag "true"] []]
    (mkPlaylistEl [Key "Name"; Str (Some "New");
       Key "Playlist Persistent ID"; Str (Some "X"); Key "Folder"; Tag "true"] [])
    [] (mkPlaylist "New" "X" "") eq_refl eq_refl eq_refl
    (fun _ _ Hin => match Hin with end)).
Defined.

Lemma fold_res_inv {A B} (P : A -> Prop) (f : A -> B -> Res A) (a b : A) (l : list B) :
  fold_res f a l = Ok b -> P a -> (forall x y z, P x -> f x y = Ok z -> P z) -> P b.
Proof.
  revert a. induction l as [|y l IH]; intros a H Ha Hstep.
  - injection H as <-. exact Ha.
  - cbn [fold_res] in H. inv_bind H. eapply IH; [exact H| |exact Hstep].
    eapply Hstep; [exact Ha|exact E].
Qed.

Lemma set_add_incl (x : string) (s : list string) : incl s (set_add x s).
Proof.
  unfold set_add. destruct (existsb (String.eqb x) s); intros y Hy; [exact Hy|].
  apply in_or_app. left. exact Hy.
Qed.

Lemma set_add_inv (x y : string) (s : list string) : In y (set_add x s) -> y = x \/ In y s.
Proof.
  unfold set_add. intros Hy. destruct (existsb (String.eqb x) s); [right; exact Hy|]. apply in_app_or in Hy as [Hy|[<- | [ ] ]]; [right; exact Hy|left; reflexivity].
Qed.

Lemma set_add_nonempty (x : string) (s : list string) : set_add x s <> [].
Proof. intros E. pose proof (set_add_in x s) as H. rewrite E in H. exact H. Qed.

Lemma resolve_member_cases (c : Config) (fs : FS) (m : MSt) (check_path path : string) (m' : MSt) :
  resolve_member c fs m check_path path = Ok m' ->
  (m' = append_path path m /\ path_exists fs check_path = true)
  \/ (exists q, m' = append_path q m /\ path_exists fs q = true)
  \/ (exists x, check_exists c = Warn /\ m' = add_miss x m)
  \/ (exists x, check_exists c = NoCheck /\ m' = append_path path (add_miss x m)).
Proof.
  unfold resolve_member. destruct (path_exists fs check_path) eqn:He.
  - intros [= <-]. left. split; reflexivity.
  - intros H. inv_bind H. destruct (path_exists fs s) eqn:Hs; cbn [negb] in H.
    + injection H as <-. right. left. exists s. split; [reflexivity|exact Hs].
    + destruct (check_exists c) eqn:Hc; [| discriminate H |]; injection H as <-.
      * right. right. left. eexists. split; reflexivity.
      * right. right. right. eexists. split; reflexivity.
Qed.

Lemma member_step_cases (c : Config) (tracks : list (string * node)) (fs : FS)
    (m m' : MSt) (track_id : string) :
  member_step c tracks fs m track_id = Ok m' ->
  exists check_path path, (docker_dir c = "" -> path = check_path)
    /\ resolve_member c fs (add_in check_path m) check_path path = Ok m'.
Proof.
  unfold member_step. intros H. inv_bind H.
  destruct (tr_file_ext t) as [ext|]; [|discriminate H].
  eexists _, _. split; [|exact H].
  intros Hd. rewrite Hd. reflexivity.
Qed.

Lemma member_loop_inv (c : Config) (tracks : list (string * node)) (fs : FS)
    (gin gnf : list string) (ids : list string) (m : MSt)
    (H : fold_res (member_step c tracks fs) (mkMSt gin gnf [] [] false) ids = Ok m) :
  (pl_incomplete m = true <-> pl_tracks_not_found m <> [])
  /\ incl (pl_tracks_not_found m) (all_tracks_not_found m)
  /\ incl gin (all_tracks_in_pls m)
  /\ incl gnf (all_tracks_not_found m).
Proof.
  apply (fold_res_inv (fun m => (pl_incomplete m = true <-> pl_tracks_not_found m <> [])
      /\ incl (pl_tracks_not_found m) (all_tracks_not_found m)
      /\ incl gin (all_tracks_in_pls m) /\ incl gnf (all_tracks_not_found m)) _ _ _ _ H).
  - cbn. split; [split; [discriminate|tauto]|].
    split; [intros x [ ]|split; apply incl_refl].
  - intros x y z [Hi [Hs [Hin Hnf]]] Hstep.
    destruct (member_step_cases _ _ _ _ _ _ Hstep) as [cp [path [_ Hr]]].
    assert (Hin' : incl gin (all_tracks_in_pls (add_in cp x)))
      by (intros w Hw; apply set_add_incl, Hin, Hw).
    destruct (resolve_member_cases _ _ _ _ _ _ Hr)
      as [[-> _]|[[q [-> _]]|[[mi [_ ->]]|[mi [_ ->]]]]]; cbn; (split; [|split; [|split]]);
      try exact Hi; try exact Hs; try exact Hin'; try exact Hnf.
    + split; [intros _; apply (set_add_nonempty mi)|reflexivity].
    + intros w Hw. apply set_add_inv in Hw as [->|Hw]; [apply set_add_in|].
      apply set_add_incl, Hs, Hw.
    + intros w Hw. apply set_add_incl, Hnf, Hw.
    + split; [intros _; apply (set_add_nonempty mi)|reflexivity].
    + intros w Hw. apply set_add_inv in Hw as [->|Hw]; [apply set_add_in|].
      apply set_add_incl, Hs, Hw.
    + intros w Hw. apply set_add_incl, Hnf, Hw.
Qed.

(** X11: over the members of a playlist, [pl_incomplete] is set exactly when
    the playlist's missing-track set is non-empty (so the playlist is
    listed in [00incomplete_playlists.txt] exactly when its [.missing]
    file has lines); every path of that set is also in the global
    [all_tracks_not_found]; and the global sets only grow. *)
Theorem member_loop_bookkeeping (c : Config) (tracks : list (string * node)) (fs : FS)
    (gin gnf : list string) (ids : list string) (m : MSt)
    (H : fold_res (member_step c tracks fs) (mkMSt gin gnf [] [] false) ids = Ok m) :
  (pl_incomplete m = true <-> pl_tracks_not_found m <> [])
  /\ incl (pl_tracks_not_found m) (all_tracks_not_found m)
  /\ incl gin (all_tracks_in_pls m)
  /\ incl gnf (all_tracks_not_found m).
Proof. exact (member_loop_inv c tracks fs gin gnf ids m H). Qed.

Lemma member_loop_bookkeeping_witness :
  let m := mkMSt ["/m/A/B/04 Song.mp3"] [String.append "/m/A/B/04 Song.mp3" nl]
             [String.append "/m/A/B/04 Song.mp3" nl] [] true in
  (pl_incomplete m = true <-> pl_tracks_not_found m <> [])
  /\ incl (pl_tracks_not_found m) (all_tracks_not_found m)
  /\ incl [] (all_tracks_in_pls m)
  /\ incl [] (all_tracks_not_found m).
Proof.
  exact (member_loop_bookkeeping (Sample.cfg Warn) (lib_tracks Sample.lib_mix) Sample.empty_fs
           [] [] ["1"] _ eq_refl).
Defined.

Lemma member_step_entry (c : Config) (tracks : list (string * node)) (fs : FS)
    (m m' : MSt) (track_id : string) (H : member_step c tracks fs m track_id = Ok m') :
  (check_exists c = NoCheck -> length (track_paths m') = S (length (track_paths m)))
  /\ (check_exists c = Warn -> docker_dir c = "" ->
      track_paths m' = track_paths m
      \/ exists q, track_paths m' = app (track_paths m) [q ++ nl] /\ path_exists fs q = true).
Proof.
  destruct (member_step_cases _ _ _ _ _ _ H) as [cp [path [Hd Hr]]].
  destruct (resolve_member_cases _ _ _ _ _ _ Hr)
    as [[-> He]|[[q [-> Hq]]|[[mi [Hc ->]]|[mi [Hc ->]]]]]; cbn; rewrite ?length_app;
    cbn [length]; (split; [intros Hc'|intros Hc' Hdd]); try (rewrite Hc in Hc'; discriminate Hc');
    try lia.
  - right. exists path. rewrite (Hd Hdd). split; [reflexivity|exact He].
  - right. exists q. split; [reflexivity|exact Hq].
  - left. reflexivity.
Qed.

Lemma member_loop_length (c : Config) (tracks : list (string * node)) (fs : FS)
    (ids : list string) (m0 m : MSt) :
  check_exists c = NoCheck ->
  fold_res (member_step c tracks fs) m0 ids = Ok m ->
  length (track_paths m) = (length (track_paths m0) + length ids)%nat.
Proof.
  intros Hc. revert m0. induction ids as [|id ids IH]; intros m0 H.
  - injection H as <-. cbn. lia.
  - cbn [fold_res] in H. inv_bind H. rewrite (IH _ H).
    rewrite (proj1 (member_step_entry _ _ _ _ _ _ E) Hc). cbn [length]. lia.
Qed.

(** X12: under [none] a playlist gets one entry per member, found or not;
    under [warn], with no docker directory, every entry written to a
    playlist names a file that exists. *)
Theorem member_loop_entries (c : Config) (tracks : list (string * node)) (fs : FS)
    (gin gnf : list string) (ids : list string) (m : MSt)
    (H : fold_res (member_step c tracks fs) (mkMSt gin gnf [] [] false) ids = Ok m) :
  (check_exists c = NoCheck -> length (track_paths m) = length ids)
  /\ (check_exists c = Warn -> docker_dir c = "" ->
      forall l, In l (track_paths m) -> exists q, l = q ++ nl /\ path_exists fs q = true).
Proof.
  split.
  - intros Hc. exact (member_loop_length _ _ _ _ _ _ Hc H).
  - intros Hc Hd.
    apply (fold_res_inv (fun m => forall l, In l (track_paths m) ->
                           exists q, l = q ++ nl /\ path_exists fs q = true) _ _ _ _ H).
    + intros l [ ].
    + intros x y z Hx Hstep l Hl.
      destruct (proj2 (member_step_entry _ _ _ _ _ _ Hstep) Hc Hd) as [E|[q [E Hq]]];
        rewrite E in Hl; [exact (Hx l Hl)|].
      apply in_app_or in Hl as [Hl|[<- | [ ] ]]; [exact (Hx l Hl)|].
      exists q. split; [reflexivity|exact Hq].
Qed.

Lemma member_loop_entries_witness :
  length (track_paths (mkMSt ["/m/A/B/04 Song.mp3"] [String.append "/m/A/B/04 Song.mp3" nl]
             [String.append "/m/A/B/04 Song.mp3" nl]
             [String.append "/m/A/B/04 Song.mp3" nl; String.append "/m/A/B/04 Song.mp3" nl] true))
  = length ["1"; "1"].
Proof.
  exact (proj1 (member_loop_entries (Sample.cfg NoCheck) (lib_tracks Sample.lib_mix)
                  Sample.empty_fs [] [] ["1"; "1"] _ eq_refl) eq_refl).
Defined.

Lemma last_char_app_nonempty (x y : string) : y <> "" -> last_char (x ++ y) = last_char y.
Proof.
  intros Hy. unfold last_char. rewrite las_app, rev_app_distr.
  destruct (rev (list_ascii_of_string y)) as [|a r] eqn:E; [|reflexivity].
  exfalso. apply Hy. destruct y; [reflexivity|]. cbn in E.
  destruct (rev (list_ascii_of_string y)); discriminate E.
Qed.

Lemma dir_sep_nonempty (c : Config) : dir_sep c <> "".
Proof. discriminate. Qed.

Lemma playlist_filepath_last (c : Config) (f : FolderTable) (pl : Playlist) (fp : string) :
  playlist_filepath c f pl = Ok fp -> last_char fp = Some "u"%char \/ last_char fp = Some "l"%char.
Proof.
  unfold playlist_filepath. intros H. inv_bind H.
  destruct (xml_output c).
  - right. assert (Hfp : join (dir_sep c) [playlist_dir c ++ s; s0; "playlist.xml"] = fp)
      by congruence. subst fp.
    change (join (dir_sep c) [playlist_dir c ++ s; s0; "playlist.xml"])
      with ((playlist_dir c ++ s) ++ dir_sep c ++ s0 ++ dir_sep c ++ "playlist.xml").
    rewrite !last_char_app_nonempty by (repeat apply str_app_nonempty; discriminate).
    reflexivity.
  - left. assert (Hfp : (playlist_dir c ++ s) ++ dir_sep c ++ s0 ++ ".m3u" = fp)
      by congruence. subst fp.
    rewrite !last_char_app_nonempty by (repeat apply str_app_nonempty; discriminate).
    reflexivity.
Qed.

Lemma last_char_missing (d : string) : last_char (d ++ ".missing") = Some "g"%char.
Proof. rewrite last_char_app_nonempty by discriminate. reflexivity. Qed.


Lemma playlist_step_missing_inv (c : Config) (tracks : list (string * node)) (f : FolderTable)
    (g g' : GSt) (plist : PlaylistEl) :
  playlist_step c tracks f g plist = Ok g' ->
  (forall d lines, In (d ++ ".missing", lines) (g_writes g) -> incl lines (g_not_found g)) ->
  (forall d lines, In (d ++ ".missing", lines) (g_writes g') -> incl lines (g_not_found g')).
Proof.
  intros H HI. unfold playlist_step in H. inv_bind H.
  destruct (existsb (String.eqb (pl_name p)) pl_ignores); [injection H as <-; exact HI|].
  destruct (is_folder plist); [injection H as <-; exact HI|].
  inv_bind H. destruct (path_exists (g_fs g) s) eqn:Hex; [injection H as <-; exact HI|].
  inv_bind H. injection H as <-.
  destruct (member_loop_inv _ _ _ _ _ _ _ E1) as [_ [Hs [_ Hnf]]].
  intros d lines Hw. cbn [write_file g_writes g_not_found] in Hw |- *.
  apply in_app_or in Hw as [Hw|[Ew| [ ] ]].
  - apply in_app_or in Hw as [Hw|[Ew| [ ] ]].
    + intros x Hx. apply Hnf, (HI d lines Hw), Hx.
    + injection Ew as Ed _. exfalso.
      pose proof (last_char_missing d) as Hd. rewrite <- Ed in Hd.
      destruct (playlist_filepath_last _ _ _ _ E0) as [Hl|Hl]; rewrite Hl in Hd; discriminate Hd.
  - injection Ew as _ <-. exact Hs.
Qed.

(** X13: every line of every [.missing] file a run writes is also a line of
    [00tracks_not_found.m3u], which the run writes last, and whose number
    of lines is the summary's count of tracks not found. *)
Theorem missing_lines_in_not_found (c : Config) (lib : Library) (fs : FS) (o : RunOut)
    (H : parse_xml c lib fs = Ok o) :
  exists writes nf,
    out_writes o = app writes [(playlist_dir c ++ "00tracks_not_found.m3u", nf)]
    /\ sum_not_found (out_summary o) = length nf
    /\ forall d lines, In (d ++ ".missing", lines) (out_writes o) -> incl lines nf.
Proof.
  unfold parse_xml in H. inv_bind H. injection H as <-.
  assert (HI : forall d lines, In (d ++ ".missing", lines) (g_writes g) ->
                 incl lines (g_not_found g)).
  { apply (fold_res_inv (fun g => forall d lines, In (d ++ ".missing", lines) (g_writes g) ->
                           incl lines (g_not_found g)) _ _ _ _ E0).
    - intros d lines [ ].
    - intros x y z Hx Hs. exact (playlist_step_missing_inv _ _ _ _ _ _ Hs Hx). }
  exists (app (g_writes g) [(playlist_dir c ++ "00incomplete_playlists.txt", g_incomplete g)]),
    (g_not_found g).
  cbn [write_file out_writes out_summary sum_not_found g_writes g_not_found].
  split; [reflexivity|split; [reflexivity|]].
  intros d lines Hw. apply in_app_or in Hw as [Hw|[Ew| [ ] ]].
  - apply in_app_or in Hw as [Hw|[Ew| [ ] ]]; [exact (HI d lines Hw)|].
    injection Ew as Ed _. exfalso.
    pose proof (last_char_missing d) as Hd. rewrite <- Ed in Hd.
    rewrite last_char_app_nonempty in Hd by discriminate. discriminate Hd.
  - injection Ew as _ <-. apply incl_refl.
Qed.

Lemma missing_lines_in_not_found_witness :
  exists writes nf,
    out_writes (mkRunOut
      (fs_write (fs_write (fs_write (fs_write Sample.empty_fs "/p//Mix.m3u")
         "/p//Mix.m3u.missing") "/p/00incomplete_playlists.txt") "/p/00tracks_not_found.m3u")
      [("/p//Mix.m3u", []); ("/p//Mix.m3u.missing", [String.append "/m/A/B/04 Song.mp3" nl]);
       ("/p/00incomplete_playlists.txt", [String.append "Mix" nl]);
       ("/p/00tracks_not_found.m3u", [String.append "/m/A/B/04 Song.mp3" nl])]
      (mkSummary 1 1 1 1))
    = app writes [("/p/" ++ "00tracks_not_found.m3u", nf)]
    /\ sum_not_found (mkSummary 1 1 1 1) = length nf
    /\ forall d lines, In (d ++ ".missing", lines)
         [("/p//Mix.m3u", []); ("/p//Mix.m3u.missing", [String.append "/m/A/B/04 Song.mp3" nl]);
          ("/p/00incomplete_playlists.txt", [String.append "Mix" nl]);
          ("/p/00tracks_not_found.m3u", [String.append "/m/A/B/04 Song.mp3" nl])]
         -> incl lines nf.
Proof.
  exact (missing_lines_in_not_found (Sample.cfg Warn) Sample.lib_mix Sample.empty_fs _ eq_refl).
Defined.




(** X15: [Track._get_file_ext] finds every kind of [FILE_EXT_MAP]: a Kind
    value equal to a key up to surrounding whitespace gets that key's
    extension, the path sanitizing of the value leaving every key as it
    is. *)
Theorem file_ext_of_known_kind (n : node) (text k ext : string)
    (Hkind : string_after n "Kind" = Some (Some text))
    (Hstrip : rstrip (lstrip text) = k)
    (Hkey : assoc k FILE_EXT_MAP = Some ext) :
  get_file_ext n = Ok (Some ext).
Proof.
  unfold get_file_ext, get_str_attr. rewrite Hkind, Hstrip. cbn [bind].
  unfold FILE_EXT_MAP, assoc in Hkey.
  repeat match type of Hkey with
  | (if String.eqb k ?k' then _ else _) = _ =>
      destruct (String.eqb_spec k k') as [->|_];
      [cbn in Hkey; injection Hkey as <-; vm_compute; reflexivity|]
  end.
  discriminate Hkey.
Qed.

Lemma file_ext_of_known_kind_witness :
  get_file_ext [Key "Kind"; Str (Some "  AAC audio file ")] = Ok (Some ".m4a").
Proof.
  exact (file_ext_of_known_kind [Key "Kind"; Str (Some "  AAC audio file ")]
           "  AAC audio file " "AAC audio file" ".m4a" eq_refl
           ltac:(vm_compute; reflexivity) eq_refl).
Defined.

Lemma ensure_slash_nonempty (dos : bool) (o o' : PathOpts) :
  ensure_slash dos o = Ok o' ->
  opt_playlist_dir o <> "" /\ opt_music_dir o <> "" /\ opt_docker_dir o <> "".
Proof.
  unfold ensure_slash. intros H. inv_bind H.
  repeat match goal with
  | E : ensure_one ?s ?p = Ok _ |- _ =>
      let Q := fresh "Q" in pose proof (ensure_one_err s p) as Q; rewrite E in Q; clear E
  end.
  repeat split; assumption.
Qed.

(** X16: the [check_exists = "none"] fallback of [parse_cli_args] for an
    empty music directory never reaches [parse_xml]: [main] calls
    [ensure_slash] next, outside its [try], and that raises [IndexError]
    on the empty music directory; options that get through keep the
    policy given and have a non-empty music and docker directory. *)
Theorem cli_none_fallback_unreachable (dos : bool) (o o' : PathOpts) (check p : Policy)
    (H : main_options dos o check = Ok (o', p)) :
  p = check /\ opt_music_dir o <> "" /\ opt_docker_dir o <> "".
Proof.
  unfold main_options in H. inv_bind H. injection H as _ <-.
  destruct (ensure_slash_nonempty _ _ _ E) as [_ [Hm Hd]].
  unfold parse_cli_check_exists. apply String.eqb_neq in Hm as Hm'. rewrite Hm'.
  split; [reflexivity|split; assumption].
Qed.

Lemma cli_none_fallback_unreachable_witness :
  Warn = Warn /\ "/m" <> "" /\ "/d" <> "".
Proof.
  exact (cli_none_fallback_unreachable false (mkPathOpts "P/" "/m" "/d")
           (mkPathOpts "P/" "/m/" "/d/") Warn Warn eq_refl).
Defined.
